(** * Random-feature ridge portfolios: the Sharpe sweep

    A shallow embedding of the core of the repository
    ([features/rff.py], [portfolio/markowitz.py],
    [experiments/sharpe_sweep.py]) and the properties its design
    document states about it.

    Conventions of the embedding.
    - A NumPy [float64] is a real number ([R]): arithmetic is exact, rounding
      and overflow are not modelled.  Where [NaN] arises without rounding (a
      missing [ret], the proxy of a short history, the covariance of a single
      observation and the day's return computed from it, the mean of an empty
      list, a cell of a result table), the value is an [option R] and [None] is
      [NaN].
    - A raised Python exception is the [Raise] constructor of [result].
    - A pandas frame is the list of its rows; a row maps the factor columns to
      their values, and the frames the sweep reads have all their columns.
    - NumPy's generator, [np.linalg.solve] and scikit-learn's PLS are outside
      the repository; the generator and PLS are parameters, the linear solver
      is elimination with back substitution in exact arithmetic. *)

From Stdlib Require Import Strings.String.
From Stdlib Require Import Reals Lra Lia List ZArith Bool.
From Stdlib Require Import Sorting.Sorted Permutation.
Import ListNotations.

Open Scope R_scope.

(** ** Exceptions *)

Inductive error : Type :=
| LinAlgError        (* numpy.linalg.LinAlgError: singular matrix *)
| ZeroDivisionError  (* Python float division by zero *)
| ValueError         (* negative dimensions, bad n_components, ... *)
| KeyError.          (* a label that is not in a dict or frame *)

Inductive result (A : Type) : Type :=
| Ok (a : A)
| Raise (e : error).

Arguments Ok {A} a.
Arguments Raise {A} e.

Definition bind {A B} (m : result A) (k : A -> result B) : result B :=
  match m with
  | Ok a => k a
  | Raise e => Raise e
  end.

Notation "x <- m ;; k" := (bind m (fun x => k))
  (at level 61, m at next level, right associativity).
Notation "' p <- m ;; k" := (bind m (fun x => let 'p := x in k))
  (at level 61, p pattern, m at next level, right associativity).

(** A [for] loop whose body may raise, building a list ([append] per item). *)
Fixpoint for_collect {A B} (body : A -> result B) (l : list A) : result (list B) :=
  match l with
  | [] => Ok []
  | a :: l' => b <- body a ;; bs <- for_collect body l' ;; Ok (b :: bs)
  end.

(** A [for] loop whose body may raise, threading a state. *)
Fixpoint for_each {A S} (body : A -> S -> result S) (l : list A) (s : S) : result S :=
  match l with
  | [] => Ok s
  | a :: l' => s' <- body a s ;; for_each body l' s'
  end.

(** ** Vectors and matrices *)

Definition vector := list R.
Definition matrix := list (list R).   (* row major *)

Fixpoint dot (u v : vector) : R :=
  match u, v with
  | a :: u', b :: v' => a * b + dot u' v'
  | _, _ => 0
  end.

Fixpoint vadd (u v : vector) : vector :=
  match u, v with
  | a :: u', b :: v' => (a + b) :: vadd u' v'
  | _, _ => []
  end.

Definition vscale (c : R) (u : vector) : vector := map (Rmult c) u.

Definition vsub (u v : vector) : vector := vadd u (vscale (-1) v).

Definition zeros (n : nat) : vector := repeat 0 n.

Definition mat_vec (A : matrix) (x : vector) : vector := map (fun r => dot r x) A.

Definition ncols (A : matrix) : nat :=
  match A with
  | [] => 0%nat
  | r :: _ => length r
  end.

Definition column (j : nat) (A : matrix) : vector := map (fun r => nth j r 0) A.

Definition transpose (A : matrix) : matrix :=
  map (fun j => column j A) (seq 0 (ncols A)).

Definition mat_scale (c : R) (A : matrix) : matrix := map (vscale c) A.

Definition mat_map (f : R -> R) (A : matrix) : matrix := map (map f) A.

(** [A + B] for two matrices of one shape (the only case in the sweep). *)
Fixpoint mat_add (A B : matrix) : matrix :=
  match A, B with
  | r :: A', s :: B' => vadd r s :: mat_add A' B'
  | _, _ => []
  end.

(** [np.hstack([A, B])] for two matrices with the same number of rows. *)
Fixpoint hstack (A B : matrix) : matrix :=
  match A, B with
  | r :: A', s :: B' => (r ++ s) :: hstack A' B'
  | _, _ => []
  end.

(** [np.eye(n)] *)
Definition eye (n : nat) : matrix :=
  map (fun i => map (fun j => if Nat.eqb i j then 1 else 0) (seq 0 n)) (seq 0 n).

Definition square (n : nat) (A : matrix) : Prop :=
  length A = n /\ Forall (fun r => length r = n) A.


(** ** [np.linalg.solve]

    LAPACK's [gesv] factors the matrix with row interchanges and raises
    [LinAlgError] when a pivot is exactly zero.  In exact arithmetic the
    choice of the pivot row changes neither the solution nor whether one
    exists, so the model takes the first row with a non-zero leading
    coefficient, eliminates the leading unknown from the other rows, solves
    the smaller system and substitutes back.  A matrix that is not square of
    the size of the right-hand side raises [LinAlgError] as well. *)

Definition equation := (list R * R)%type.   (* coefficients, right-hand side *)

Fixpoint find_pivot (rows : list equation)
  : option ((R * list R * R) * list equation) :=
  match rows with
  | [] => None
  | ([], _) :: _ => None
  | (a :: r, b) :: rest =>
      if Req_EM_T a 0 then
        match find_pivot rest with
        | Some (p, others) => Some (p, (a :: r, b) :: others)
        | None => None
        end
      else Some ((a, r, b), rest)
  end.

Definition eliminate (p : R * list R * R) (e : equation) : equation :=
  let '(a, r, b) := p in
  match e with
  | ([], d) => ([], d)
  | (c :: s, d) => (vsub s (vscale (c / a) r), d - c / a * b)
  end.

(** Every equation has [n] coefficients. *)
Definition wf_rows (n : nat) (rows : list equation) : Prop :=
  Forall (fun e => length (fst e) = n) rows.

Fixpoint gauss (n : nat) (rows : list equation) : option vector :=
  match n with
  | O => match rows with [] => Some [] | _ => None end
  | S n' =>
      match find_pivot rows with
      | None => None
      | Some ((a, r, b), others) =>
          match gauss n' (map (eliminate (a, r, b)) others) with
          | None => None
          | Some xs => Some ((b - dot r xs) / a :: xs)
          end
      end
  end.

Definition is_square (n : nat) (A : matrix) : bool :=
  Nat.eqb (length A) n && forallb (fun r => Nat.eqb (length r) n) A.

Definition linalg_solve (A : matrix) (b : vector) : result vector :=
  if is_square (length b) A then
    match gauss (length b) (combine A b) with
    | Some x => Ok x
    | None => Raise LinAlgError
    end
  else Raise LinAlgError.

(** ** [portfolio/markowitz.py] *)

Definition sum_list (xs : vector) : R := fold_right Rplus 0 xs.

(** [np.cov(M)] for [M] of shape (d, N): each row is a variable, each
    column an observation; the rows are centred and the products divided by
    [N - 1].  With fewer than two observations the divisor is not positive
    and every entry is [NaN]: [None].  Without variables the result is the
    empty matrix. *)
Definition np_cov (N : nat) (M : matrix) : option matrix :=
  match M with
  | [] => Some []
  | _ =>
      if (N <? 2)%nat then None
      else
        let centred := map (fun v => map (fun x => x - sum_list v / INR N) v) M in
        Some (map (fun u => map (fun v => dot u v / (INR N - 1)) centred) centred)
  end.

(** [F_t = X.T @ y], [cov = np.cov(X.T)].  The two arguments carry the same
    index (the rows of one day), so [reindex] is the identity. *)
Definition expected_return_and_cov (factors : matrix) (expected_return : vector)
  : vector * option matrix :=
  let Xt := transpose factors in
  (mat_vec Xt expected_return, np_cov (length factors) Xt).

(** A Python dict keyed by the label ["Lambda_<lam>"]; the label is kept as the
    number it is formatted from. *)
Definition label_eqb (a b : R) : bool := if Req_EM_T a b then true else false.

Fixpoint dict_set {V} (k : R) (v : V) (d : list (R * V)) : list (R * V) :=
  match d with
  | [] => [(k, v)]
  | (k', v') :: d' => if label_eqb k' k then (k', v) :: d' else (k', v') :: dict_set k v d'
  end.

Fixpoint dict_get {V} (k : R) (d : list (R * V)) : option V :=
  match d with
  | [] => None
  | (k', v') :: d' => if label_eqb k' k then Some v' else dict_get k d'
  end.


Definition ridge_markowitz_weights (F_t : vector) (cov : matrix) (lambdas : list R)
  : result (list (R * vector)) :=
  let n := length F_t in
  let I := eye n in
  for_each (fun lam out =>
              let Q := mat_add cov (mat_scale lam I) in
              w <- linalg_solve Q F_t ;;
              Ok (dict_set lam w out))
           lambdas [].

(** A matrix is singular when it sends a non-zero vector to zero. *)
Definition singular (A : matrix) : Prop :=
  exists x, length x = length A /\ x <> zeros (length A) /\
            mat_vec A x = zeros (length A).

(** Positive semidefinite, as a quadratic form. *)
Definition psd (A : matrix) : Prop :=
  forall x, length x = length A -> 0 <= dot x (mat_vec A x).

(** ** [features/rff.py] *)

(** [numpy.random.Generator]: a state, seeded by [default_rng], from which
    each draw returns a value and the advanced state. *)
Record Generator : Type := {
  rng_state : Type;
  default_rng : Z -> rng_state;
  standard_normal : rng_state -> R * rng_state;
  integers : rng_state -> nat -> nat * rng_state
}.

Record RFFConfig : Type := { rff_random_seed : Z }.

(** [2.0 / n] for a Python [int] [n]. *)
Definition py_div (a : R) (n : Z) : result R :=
  if (n =? 0)%Z then Raise ZeroDivisionError else Ok (a / IZR n).

(** The candidate set of [gamma]: 0.5, 0.6, 0.7, 0.8, 0.9, 1.0. *)
Definition gamma_candidates : list R :=
  [5 / 10; 6 / 10; 7 / 10; 8 / 10; 9 / 10; 1].

(** A pandas row: column label to value. *)
Definition record := string -> R.

(** [X[factor_names].to_numpy()] *)
Definition to_numpy (X : list record) (factor_names : list string) : matrix :=
  map (fun row => map row factor_names) X.

(** [A @ B] where [B] has [n] columns. *)
Definition matmul (n : nat) (A B : matrix) : matrix :=
  map (fun r => map (fun j => dot r (column j B)) (seq 0 n)) A.

(** The row of the feature matrix of one asset, cosines then sines. *)
Definition feature_row (n : nat) (omega : matrix) (gamma s : R) (x : vector) : vector :=
  map (fun j => s * cos (dot x (column j omega) * gamma)) (seq 0 n) ++
  map (fun j => s * sin (dot x (column j omega) * gamma)) (seq 0 n).

Section RandomFeatures.

Variable G : Generator.

Fixpoint draw_row (n : nat) (g : rng_state G) : vector * rng_state G :=
  match n with
  | O => ([], g)
  | S n' =>
      let (x, g1) := standard_normal G g in
      let (xs, g2) := draw_row n' g1 in
      (x :: xs, g2)
  end.

Fixpoint draw_rows (k n : nat) (g : rng_state G) : matrix * rng_state G :=
  match k with
  | O => ([], g)
  | S k' =>
      let (r, g1) := draw_row n g in
      let (rs, g2) := draw_rows k' n g1 in
      (r :: rs, g2)
  end.

(** [rng.normal(0.0, 1.0, size=(k, n))]: the array is filled row by row;
    a negative dimension raises [ValueError]. *)
Definition rng_normal (g : rng_state G) (k : nat) (n : Z)
  : result (matrix * rng_state G) :=
  if (n <? 0)%Z then Raise ValueError else Ok (draw_rows k (Z.to_nat n) g).

(** [rng.choice(candidates)] *)
Definition rng_choice (g : rng_state G) (candidates : list R) : R * rng_state G :=
  let (i, g1) := integers G g (length candidates) in
  (nth i candidates 0, g1).

Definition rff_features (X : list record) (factor_names : list string)
           (n_factors : Z) (cfg : RFFConfig) : result matrix :=
  let X := to_numpy X factor_names in
  let rng := default_rng G (rff_random_seed cfg) in
  '(omega, rng1) <- rng_normal rng (length factor_names) n_factors ;;
  let (gamma, _) := rng_choice rng1 gamma_candidates in
  let proj := mat_map (fun p => p * gamma) (matmul (Z.to_nat n_factors) X omega) in
  q <- py_div 2 n_factors ;;
  let cos_part := mat_scale (sqrt q) (mat_map cos proj) in
  q' <- py_div 2 n_factors ;;
  let sin_part := mat_scale (sqrt q') (mat_map sin proj) in
  Ok (hstack cos_part sin_part).

(** The random projection of the design document: the pair ([omega],
    [gamma]) as a function of the seed and the shape alone. *)
Definition draw_projection (seed : Z) (k : nat) (n : Z) : result (matrix * R) :=
  '(omega, rng1) <- rng_normal (default_rng G seed) k n ;;
  Ok (omega, fst (rng_choice rng1 gamma_candidates)).

(** The feature map once the projection is fixed. *)
Definition apply_projection (X : matrix) (n : Z) (p : matrix * R) : result matrix :=
  let (omega, gamma) := p in
  let proj := mat_map (fun p => p * gamma) (matmul (Z.to_nat n) X omega) in
  q <- py_div 2 n ;;
  Ok (hstack (mat_scale (sqrt q) (mat_map cos proj))
             (mat_scale (sqrt q) (mat_map sin proj))).

End RandomFeatures.

Arguments rff_features G X factor_names n_factors cfg : clear implicits.

(** ** [experiments/sharpe_sweep.py] *)

(** The columns of [merged_df] the sweep reads.  [ret] may be missing. *)
Record Row : Type := {
  TradingDay : Z;
  SecuCode : string;
  ret : option R;
  exposure : record
}.

(** The fields of [ExperimentConfig] the sweep reads. *)
Record ExperimentConfig : Type := {
  random_seed : Z;
  n_pls_components : Z;
  n_factors_range : list Z;
  lambdas : list R
}.

(** [df.sort_values(["TradingDay", "SecuCode"])]: a stable sort. *)
Definition row_leb (a b : Row) : bool :=
  (TradingDay a <? TradingDay b)%Z ||
  ((TradingDay a =? TradingDay b)%Z && String.leb (SecuCode a) (SecuCode b)).

Definition row_le (a b : Row) : Prop := row_leb a b = true.
Definition day_le (a b : Row) : Prop := (TradingDay a <= TradingDay b)%Z.

Fixpoint insert_row (x : Row) (l : list Row) : list Row :=
  match l with
  | [] => [x]
  | y :: l' => if row_leb x y then x :: l else y :: insert_row x l'
  end.

Definition sort_values (df : list Row) : list Row := fold_right insert_row [] df.

(** The observations of the trailing window that ends at position [i]. *)
Definition window_at (window : nat) (xs : list (option R)) (i : nat) : list (option R) :=
  skipn (S i - window) (firstn (S i) xs).

Definition present (w : list (option R)) : list R :=
  flat_map (fun o => match o with Some v => [v] | None => [] end) w.

(** [x.rolling(window, min_periods=min_periods).mean()]: the mean of the
    values present in the window, [NaN] when fewer than [min_periods] are. *)
Definition rolling_mean (window min_periods : nat) (xs : list (option R))
  : list (option R) :=
  map (fun i =>
         let obs := present (window_at window xs i) in
         if (Nat.max 1 min_periods <=? length obs)%nat
         then Some (sum_list obs / INR (length obs))
         else None)
      (seq 0 (length xs)).

(** [x.shift(periods)] *)
Definition shift (periods : nat) (xs : list (option R)) : list (option R) :=
  firstn (length xs) (repeat None periods ++ xs).

Definition same_code (c : string) (r : Row) : bool :=
  String.eqb (SecuCode r) c.

(** [df.groupby("SecuCode")["ret"].transform(f)]: [f] maps the [ret] series of
    each asset, in the order of [df]; every row receives the value at its own
    position within its asset's series. *)
Definition groupby_transform (f : list (option R) -> list (option R)) (df : list Row)
  : list (option R) :=
  map (fun '(i, r) =>
         let c := SecuCode r in
         let series := f (map ret (filter (same_code c) df)) in
         let pos := length (filter (same_code c) (firstn i df)) in
         nth pos series None)
      (combine (seq 0 (length df)) df).

Definition _compute_past_return_avg (df : list Row) (window : nat) : list (option R) :=
  groupby_transform (fun x => shift 1 (rolling_mean window window x)) df.

(** A row that survived [dropna(subset=["past_ret_ave", "ret"])]. *)
Record DayRow : Type := {
  dr_day : Z;
  dr_code : string;
  dr_ret : R;
  dr_past_ret_ave : R;
  dr_exposure : record
}.

Definition dropna (df : list (Row * option R)) : list DayRow :=
  flat_map (fun '(r, p) =>
              match p, ret r with
              | Some avg, Some x =>
                  [{| dr_day := TradingDay r; dr_code := SecuCode r; dr_ret := x;
                      dr_past_ret_ave := avg; dr_exposure := exposure r |}]
              | _, _ => []
              end) df.

(** [Series.unique()]: the distinct values in order of first appearance. *)
Fixpoint unique_from (seen : list Z) (l : list Z) : list Z :=
  match l with
  | [] => []
  | x :: l' =>
      if existsb (Z.eqb x) seen then unique_from seen l'
      else x :: unique_from (x :: seen) l'
  end.

Definition unique (l : list Z) : list Z := unique_from [] l.

(** [df[df["TradingDay"] == day]] *)
Definition day_slice (df : list DayRow) (day : Z) : list DayRow :=
  filter (fun r => (dr_day r =? day)%Z) df.

(** The sorted frame with its proxy column; the frame after the rows with a
    missing proxy or a missing return are dropped; and its trading days. *)
Definition with_proxy (merged_df : list Row) : list (Row * option R) :=
  let df := sort_values merged_df in
  combine df (_compute_past_return_avg df 5).

Definition prepared (merged_df : list Row) : list DayRow :=
  dropna (with_proxy merged_df).

Definition trading_days_of (merged_df : list Row) : list Z :=
  unique (map dr_day (prepared merged_df)).

(** The values of a list of floats, when none of them is [NaN]. *)
Fixpoint all_present (w : list (option R)) : option (list R) :=
  match w with
  | [] => Some []
  | Some v :: w' => option_map (cons v) (all_present w')
  | None :: _ => None
  end.

(** [np.mean] and [np.std(ddof=...)] of a Python list of floats; [None] is
    [NaN], the result for an empty list and for a list that holds a [NaN]. *)
Definition np_mean (xs : list (option R)) : option R :=
  match all_present xs with
  | Some (v :: vs) => Some (sum_list (v :: vs) / INR (length (v :: vs)))
  | _ => None
  end.

Definition np_std (xs : list (option R)) (ddof : nat) : option R :=
  match all_present xs, np_mean xs with
  | Some vs, Some m =>
      if (length vs <=? ddof)%nat then None
      else Some (sqrt (sum_list (map (fun x => (x - m) * (x - m)) vs)
                       / INR (length vs - ddof)))
  | _, _ => None
  end.

(** [(mu / sig) if sig > 0 else np.nan]; a comparison with [NaN] is false. *)
Definition sharpe_ratio (mu sig : option R) : option R :=
  match sig with
  | Some s =>
      if Rlt_dec 0 s then
        match mu with Some m => Some (m / s) | None => None end
      else None
  | None => None
  end.

(** A float [DataFrame] indexed by [n_factors], one column per lambda label,
    created full of [NaN]. *)
Record DataFrame : Type := {
  index : list Z;
  columns : list R;
  cells : list (list (option R))
}.

Definition new_frame (idx : list Z) (cols : list R) : DataFrame :=
  {| index := idx; columns := cols;
     cells := map (fun _ => map (fun _ => None) cols) idx |}.

(** [frame.loc[n, label] = v]: every row labelled [n], every column
    labelled [label]. *)
Definition loc_set (t : DataFrame) (n : Z) (lam : R) (v : option R) : DataFrame :=
  {| index := index t; columns := columns t;
     cells :=
       map (fun '(i, r) =>
              if (i =? n)%Z
              then map (fun '(c, x) => if label_eqb c lam then v else x)
                       (combine (columns t) r)
              else r)
           (combine (index t) (cells t)) |}.

(** [frame.loc[n, label]]: the entry of the first such row and column. *)
Fixpoint lookup_col (lam : R) (cols : list R) (r : list (option R)) : option (option R) :=
  match cols, r with
  | c :: cols', x :: r' => if label_eqb c lam then Some x else lookup_col lam cols' r'
  | _, _ => None
  end.

Fixpoint lookup_row (n : Z) (idx : list Z) (rows : list (list (option R)))
  : option (list (option R)) :=
  match idx, rows with
  | i :: idx', r :: rows' => if (i =? n)%Z then Some r else lookup_row n idx' rows'
  | _, _ => None
  end.

Definition loc (t : DataFrame) (n : Z) (lam : R) : option (option R) :=
  match lookup_row n (index t) (cells t) with
  | Some r => lookup_col lam (columns t) r
  | None => None
  end.

Record SweepResult : Type := {
  sharpe : DataFrame;
  mean : DataFrame;
  std : DataFrame
}.

Section Sweep.

Variable G : Generator.

(** scikit-learn's [PLSRegression(n_components).fit(X, y).transform(X)]. *)
Variable pls_fit_transform : matrix -> vector -> Z -> result matrix.

Definition pls_reduce (X : matrix) (y : vector) (n_components : Z) : result matrix :=
  pls_fit_transform X y n_components.

Variable factor_names : list string.
Variable cfg : ExperimentConfig.
Variable use_pls : bool.

(** The body of the loop over trading days; the day's return is a float. *)
Definition day_return (n_factors : Z) (lam : R) (day_df : list DayRow)
  : result (option R) :=
  let rff_cfg := {| rff_random_seed := random_seed cfg |} in
  let exp_ret := map dr_past_ret_ave day_df in
  let realized_ret := map dr_ret day_df in
  feats <- rff_features G (map dr_exposure day_df) factor_names n_factors rff_cfg ;;
  feats <- (if use_pls then pls_reduce feats exp_ret (n_pls_components cfg)
            else Ok feats) ;;
  let '(F_t, cov) := expected_return_and_cov feats exp_ret in
  match cov with
  | Some cov =>
      w_df <- ridge_markowitz_weights F_t cov [lam] ;;
      w <- match dict_get lam w_df with Some w => Ok w | None => Raise KeyError end ;;
      let '(ofs_Ft, _) := expected_return_and_cov feats realized_ret in
      Ok (Some (dot w ofs_Ft))
  | None =>
      (* every entry of [cov + lam * I] is NaN: the factorisation meets no
         zero pivot, the weights and the day's return are NaN *)
      Ok None
  end.

(** The list [daily_returns] of one cell. *)
Definition cell_returns (df : list DayRow) (trading_days : list Z)
           (n_factors : Z) (lam : R) : result (list (option R)) :=
  for_collect (fun day => day_return n_factors lam (day_slice df day)) trading_days.

(** The loop body of the design document: the projection is drawn once for
    the feature count and handed to every day and every lambda. *)
Definition day_return_with (p : matrix * R) (n_factors : Z) (lam : R)
           (day_df : list DayRow) : result (option R) :=
  let exp_ret := map dr_past_ret_ave day_df in
  let realized_ret := map dr_ret day_df in
  feats <- apply_projection (to_numpy (map dr_exposure day_df) factor_names) n_factors p ;;
  feats <- (if use_pls then pls_reduce feats exp_ret (n_pls_components cfg)
            else Ok feats) ;;
  let '(F_t, cov) := expected_return_and_cov feats exp_ret in
  match cov with
  | Some cov =>
      w_df <- ridge_markowitz_weights F_t cov [lam] ;;
      w <- match dict_get lam w_df with Some w => Ok w | None => Raise KeyError end ;;
      let '(ofs_Ft, _) := expected_return_and_cov feats realized_ret in
      Ok (Some (dot w ofs_Ft))
  | None =>
      (* every entry of [cov + lam * I] is NaN: the factorisation meets no
         zero pivot, the weights and the day's return are NaN *)
      Ok None
  end.

Definition frames := (DataFrame * DataFrame * DataFrame)%type.  (* mean, std, sharpe *)

(** The body of the loop over lambdas. *)
Definition sweep_cell (df : list DayRow) (trading_days : list Z)
           (n_factors : Z) (lam : R) (st : frames) : result frames :=
  let '(mean_df, std_df, sharpe_df) := st in
  daily_returns <- cell_returns df trading_days n_factors lam ;;
  let mu := np_mean daily_returns in
  let sig := np_std daily_returns 0 in
  Ok (loc_set mean_df n_factors lam mu,
      loc_set std_df n_factors lam sig,
      loc_set sharpe_df n_factors lam (sharpe_ratio mu sig)).

Definition run_sharpe_sweep (merged_df : list Row) : result SweepResult :=
  let df := sort_values merged_df in
  let df := dropna (combine df (_compute_past_return_avg df 5)) in
  let trading_days := unique (map dr_day df) in
  let cols := lambdas cfg in
  let mean_df := new_frame (n_factors_range cfg) cols in
  let std_df := new_frame (n_factors_range cfg) cols in
  let sharpe_df := new_frame (n_factors_range cfg) cols in
  '(mean_df, std_df, sharpe_df) <-
     for_each (fun n_factors st =>
                 for_each (fun lam st => sweep_cell df trading_days n_factors lam st)
                          (lambdas cfg) st)
              (n_factors_range cfg) (mean_df, std_df, sharpe_df) ;;
  Ok {| sharpe := sharpe_df; mean := mean_df; std := std_df |}.

End Sweep.

(** ** Notions used to state the properties *)

(** The three tables hold an entry at [(n, lam)]. *)
Definition has_cell (st : DataFrame * DataFrame * DataFrame) (n : Z) (lam : R) : Prop :=
  let '(m, s, sh) := st in
  loc m n lam <> None /\ loc s n lam <> None /\ loc sh n lam <> None.

(** The three tables hold, at [(n, lam)], the statistics of the daily
    returns [cells n lam]. *)
Definition recorded (cells : Z -> R -> result (list (option R)))
           (st : DataFrame * DataFrame * DataFrame) (n : Z) (lam : R) : Prop :=
  let '(m, s, sh) := st in
  exists rs,
    cells n lam = Ok rs /\
    loc m n lam = Some (np_mean rs) /\
    loc s n lam = Some (np_std rs 0) /\
    loc sh n lam = Some (sharpe_ratio (np_mean rs) (np_std rs 0)).

(** A step of the sweep keeps property [P] of the tables at every cell. *)
Definition keeps (P : DataFrame * DataFrame * DataFrame -> Z -> R -> Prop)
           (st st' : DataFrame * DataFrame * DataFrame) : Prop :=
  forall n lam, P st n lam -> P st' n lam.

(** The population standard deviation of the design document: the squared
    deviations from the mean are divided by the number of observations.
    It is undefined for no observation and when an observation is [NaN]. *)
Definition population_std (xs : list (option R)) : option R :=
  match all_present xs with
  | Some (v :: vs) =>
      let N := INR (length (v :: vs)) in
      let m := sum_list (v :: vs) / N in
      Some (sqrt (sum_list (map (fun x => (x - m) * (x - m)) (v :: vs)) / N))
  | _ => None
  end.

(** The combination [x_1 c_1 + ... + x_d c_d] of vectors of length [N]. *)
Fixpoint lincomb (N : nat) (cs : matrix) (x : vector) : vector :=
  match cs, x with
  | c :: cs', a :: x' => vadd (vscale a c) (lincomb N cs' x')
  | _, _ => zeros N
  end.

(** The mean of the [window] returns that precede position [k] of an asset's
    history; missing when fewer than [window] returns precede it or one of
    them is missing. *)
Definition trailing_mean (window : nat) (history : list (option R)) (k : nat)
  : option R :=
  if (k <? window)%nat then None
  else
    match all_present (firstn window (skipn (k - window) history)) with
    | Some vs => Some (sum_list vs / INR window)
    | None => None
    end.

(** The key of a panel row. *)
Definition row_key (r : Row) : Z * string := (TradingDay r, SecuCode r).

(** ** Worked inputs *)


(** A small generator for the worked inputs: a linear congruential state. *)
Definition toy_generator : Generator :=
  {| rng_state := Z;
     default_rng := fun seed => seed;
     standard_normal := fun s => (IZR (s mod 7 - 3) / 2, ((5 * s + 3) mod 64)%Z);
     integers := fun s high => (Z.to_nat (s mod Z.of_nat high), (5 * s + 3) mod 64)%Z |}.

(** PLS is switched off in the worked inputs. *)
Definition pls_unused : matrix -> vector -> Z -> result matrix :=
  fun _ _ _ => Raise ValueError.

Definition mk_row (day : Z) (code : string) (r : R) : Row :=
  {| TradingDay := day; SecuCode := code; ret := Some r; exposure := fun _ => 0 |}.

(** Two assets with seven days of history each, listed asset by asset. *)
Definition demo_panel : list Row :=
  map (fun d => mk_row d "000002"%string (IZR d / 100)) [1; 2; 3; 4; 5; 6; 7]%Z ++
  map (fun d => mk_row d "000001"%string (IZR d / 50)) [1; 2; 3; 4; 5; 6; 7]%Z.

(** Asset 000002 enters the panel on day 4: on day 6 it has no
    five-observation history yet, asset 000001 has. *)
Definition late_listing_panel : list Row :=
  map (fun d => mk_row d "000001"%string (IZR d / 50)) [1; 2; 3; 4; 5; 6]%Z ++
  map (fun d => mk_row d "000002"%string (IZR d / 100)) [4; 5; 6]%Z.

Definition demo_factor_names : list string := ["EP_TTM"%string; "ROE"%string].

Definition demo_cfg : ExperimentConfig :=
  {| random_seed := 42; n_pls_components := 10;
     n_factors_range := [1; 2]%Z; lambdas := [1 / 10; 1] |}.


(** No feature count at all. *)
Definition empty_grid_cfg : ExperimentConfig :=
  {| random_seed := 42; n_pls_components := 10;
     n_factors_range := []; lambdas := [1 / 10; 1] |}.


(** A grid whose second feature count is zero. *)
Definition zero_count_cfg : ExperimentConfig :=
  {| random_seed := 42; n_pls_components := 10;
     n_factors_range := [2; 0]%Z; lambdas := [1] |}.

(** ** Notions used to state further properties *)

(** A table has one row of cells per index label and one cell per column. *)
Definition well_shaped (t : DataFrame) : Prop :=
  length (cells t) = length (index t) /\
  Forall (fun r => length r = length (columns t)) (cells t).

(** A table of the grid [idx] by [cols]. *)
Definition table_of (idx : list Z) (cols : list R) (t : DataFrame) : Prop :=
  index t = idx /\ columns t = cols /\ well_shaped t.

(** A panel in which no asset has more than five rows. *)
Definition short_histories (panel : list Row) : Prop :=
  forall r, In r panel ->
    (length (filter (same_code (SecuCode r)) panel) <= 5)%nat.

(** Three rows of one asset. *)
Definition short_panel : list Row :=
  map (fun d => mk_row d "000001"%string (IZR d / 50)) [1; 2; 3]%Z.

(** The worked panel with its rows listed day by day. *)
Definition demo_panel_by_day : list Row :=
  flat_map (fun d => [mk_row d "000001"%string (IZR d / 50);
                      mk_row d "000002"%string (IZR d / 100)])
           [7; 6; 5; 4; 3; 2; 1]%Z.


(** Entry [(i, j)] of a matrix, and symmetry. *)
Definition entry (C : matrix) (i j : nat) : R := nth j (nth i C []) 0.

Definition symmetric (C : matrix) : Prop := forall i j, entry C i j = entry C j i.

(** ** [config.py] *)

(** The defaults of [ExperimentConfig] for the fields the sweep reads. *)
Definition default_config : ExperimentConfig :=
  {| random_seed := 42;
     n_pls_components := 10;
     n_factors_range :=
       [10; 15; 20; 25; 30; 35; 40; 45; 50; 55; 60; 65; 70; 75; 80;
        85; 90; 95; 100; 110; 120; 130; 140; 150; 170; 200]%Z;
     lambdas := [1 / 100000; 1 / 1000; 1 / 10; 1; 10] |}.

(** ** [data/preprocess.py] *)

(** A row of the merged frame: its two keys and its value columns, floats
    that may be missing ([NaN]).  The keys are never missing. *)
Record RawRow : Type := {
  raw_day : Z;
  raw_code : string;
  raw_cell : string -> option R
}.

(** A frame: the labels of its value columns and its rows; the key columns
    [TradingDay] and [SecuCode] are always there. *)
Record RawFrame : Type := {
  raw_columns : list string;
  raw_rows : list RawRow
}.

Definition is_key (c : string) : bool :=
  String.eqb c "TradingDay" || String.eqb c "SecuCode".

Definition has_value_column (df : RawFrame) (c : string) : bool :=
  existsb (String.eqb c) (raw_columns df).

Definition has_column (df : RawFrame) (c : string) : bool :=
  is_key c || has_value_column df c.

(** [notna] of the cell of column [c]. *)
Definition notna (r : RawRow) (c : string) : bool :=
  is_key c || match raw_cell r c with Some _ => true | None => false end.

(** [df.dropna(subset=required_cols)]: a label that is no column raises
    [KeyError]; otherwise the rows without a missing value in the named
    columns are kept, in order. *)
Definition drop_rows_with_missing (df : RawFrame) (required_cols : list string)
  : result RawFrame :=
  if forallb (has_column df) required_cols
  then Ok {| raw_columns := raw_columns df;
             raw_rows := filter (fun r => forallb (notna r) required_cols)
                                (raw_rows df) |}
  else Raise KeyError.

(** [df.sort_values(["SecuCode", "TradingDay"])]: a stable sort. *)
Definition raw_leb (a b : RawRow) : bool :=
  String.ltb (raw_code a) (raw_code b) ||
  (String.eqb (raw_code a) (raw_code b) && (raw_day a <=? raw_day b)%Z).

Definition raw_le (a b : RawRow) : Prop := raw_leb a b = true.

Fixpoint insert_raw (x : RawRow) (l : list RawRow) : list RawRow :=
  match l with
  | [] => [x]
  | y :: l' => if raw_leb x y then x :: l else y :: insert_raw x l'
  end.

Definition sort_by_asset (df : list RawRow) : list RawRow :=
  fold_right insert_raw [] df.

(** [Series.ffill()]: a missing value takes the last value present before
    it, and stays missing when there is none. *)
Fixpoint ffill_from (last : option R) (xs : list (option R)) : list (option R) :=
  match xs with
  | [] => []
  | Some v :: xs' => Some v :: ffill_from (Some v) xs'
  | None :: xs' => last :: ffill_from last xs'
  end.

Definition ffill (xs : list (option R)) : list (option R) := ffill_from None xs.

Definition same_asset (c : string) (r : RawRow) : bool :=
  String.eqb (raw_code r) c.


(** The cell that [df.groupby("SecuCode")[c].<f>()] gives to row [i] of
    [df]: [f] maps the series of column [c] of each asset, in the order of
    [df], and a row receives the value at its own position within its
    asset's series. *)
Definition groupby_asset (f : list (option R) -> list (option R)) (c : string)
           (df : list RawRow) (i : nat) (r : RawRow) : option R :=
  let group := filter (same_asset (raw_code r)) df in
  let pos := length (filter (same_asset (raw_code r)) (firstn i df)) in
  nth pos (f (map (fun r' => raw_cell r' c) group)) None.

(** [row[cols] = new]: the cells of the columns [cols] are replaced. *)
Definition set_cells (cols : list string) (new : string -> option R) (r : RawRow)
  : RawRow :=
  {| raw_day := raw_day r;
     raw_code := raw_code r;
     raw_cell := fun c => if existsb (String.eqb c) cols then new c else raw_cell r c |}.

(** [forward_fill_by_asset]: the factor columns are value columns; selecting
    a label that is no column raises [KeyError]. *)
Definition forward_fill_by_asset (df : RawFrame) (factor_cols : list string)
  : result RawFrame :=
  let out := sort_by_asset (raw_rows df) in
  if forallb (has_value_column df) factor_cols
  then Ok {| raw_columns := raw_columns df;
             raw_rows :=
               map (fun '(i, r) =>
                      set_cells factor_cols
                                (fun c => groupby_asset ffill c out i r) r)
                   (combine (seq 0 (length out)) out) |}
  else Raise KeyError.







(** The key of a raw row. *)
Definition raw_key (r : RawRow) : Z * string := (raw_day r, raw_code r).

(** The last of the values present in a series. *)
Definition latest (xs : list (option R)) : option R :=
  last (map Some (present xs)) None.

(** Column [c] of a list of rows. *)
Definition cells_of (c : string) (rows : list RawRow) : list (option R) :=
  map (fun r => raw_cell r c) rows.

(** A raw frame of two assets over three days with two value columns. *)
Definition mk_raw (day : Z) (code : string) (ep roe : option R) : RawRow :=
  {| raw_day := day; raw_code := code;
     raw_cell := fun c => if String.eqb c "EP_TTM" then ep
                          else if String.eqb c "ROE" then roe else None |}.

Definition demo_raw : RawFrame :=
  {| raw_columns := ["EP_TTM"%string; "ROE"%string];
     raw_rows := [mk_raw 1 "000002" (Some 3) (Some 1);
                  mk_raw 1 "000001" (Some 1) None;
                  mk_raw 2 "000001" None (Some 2);
                  mk_raw 2 "000002" (Some 5) (Some 4);
                  mk_raw 3 "000001" (Some 2) None;
                  mk_raw 3 "000002" None (Some 4)] |}.


(* ================================================================== *)
(** * Properties *)
(* ================================================================== *)

(** ** Vector algebra *)

Lemma dot_nil_r u : dot u [] = 0.
Proof. destruct u; reflexivity. Qed.

Lemma dot_comm u : forall v, dot u v = dot v u.
Proof.
  induction u as [|a u IH]; intros [|b v]; simpl; try reflexivity.
  rewrite IH. ring.
Qed.

Lemma dot_vscale k u : forall x, dot (vscale k u) x = k * dot u x.
Proof.
  induction u as [|a u IH]; intros [|b x]; simpl; try ring.
  rewrite IH. ring.
Qed.

Lemma dot_vadd u : forall v x, length u = length v ->
  dot (vadd u v) x = dot u x + dot v x.
Proof.
  induction u as [|a u IH]; intros [|b v] x Hl; simpl in *; try discriminate.
  - ring.
  - destruct x as [|c x]; simpl; [ring|].
    rewrite IH by congruence. ring.
Qed.

Lemma vscale_length k u : length (vscale k u) = length u.
Proof. apply length_map. Qed.

Lemma vadd_length u : forall v, length u = length v -> length (vadd u v) = length u.
Proof.
  induction u as [|a u IH]; intros [|b v] Hl; simpl in *; try discriminate; auto.
Qed.

Lemma dot_vsub u v x : length u = length v ->
  dot (vsub u v) x = dot u x - dot v x.
Proof.
  intros Hl. unfold vsub. rewrite dot_vadd by (rewrite vscale_length; exact Hl).
  rewrite dot_vscale. ring.
Qed.

Lemma vsub_length u v : length u = length v -> length (vsub u v) = length u.
Proof.
  intros Hl. unfold vsub. apply vadd_length. rewrite vscale_length. exact Hl.
Qed.

Lemma dot_zeros_r u : forall n, dot u (zeros n) = 0.
Proof.
  induction u as [|a u IH]; intros [|n]; simpl; try reflexivity.
  unfold zeros in IH. rewrite IH. ring.
Qed.

Lemma dot_self_nonneg u : 0 <= dot u u.
Proof.
  induction u as [|a u IH]; simpl; [lra|]. nra.
Qed.

Lemma dot_self_zero u : dot u u = 0 -> u = zeros (length u).
Proof.
  induction u as [|a u IH]; simpl; intros H; [reflexivity|].
  pose proof (dot_self_nonneg u) as Hu.
  assert (a = 0) by nra. assert (dot u u = 0) by nra.
  unfold zeros in *. simpl. f_equal; auto.
Qed.

(** ** The linear solver *)

Lemma find_pivot_some rows : forall a r b others,
  find_pivot rows = Some ((a, r, b), others) ->
  a <> 0 /\ length rows = S (length others) /\
  (forall e, In e rows <-> e = (a :: r, b) \/ In e others).
Proof.
  induction rows as [|[[|c s] d] rest IH]; simpl; intros a r b others H;
    try discriminate.
  destruct (Req_EM_T c 0) as [Hc|Hc].
  - destruct (find_pivot rest) as [[p oth]|] eqn:Hp; [|discriminate].
    inversion H; subst p others; clear H.
    destruct (IH _ _ _ _ eq_refl) as (Ha & Hlen & Hin).
    split; [exact Ha|]. split; [simpl; congruence|].
    intros e. simpl. rewrite Hin. tauto.
  - inversion H; subst; clear H. repeat split; auto.
    + simpl. intros [<-|Hin]; auto.
    + simpl. intros [->|Hin]; auto.
Qed.

Lemma find_pivot_none n rows :
  wf_rows (S n) rows -> find_pivot rows = None ->
  forall r b, In (r, b) rows -> exists s, r = 0 :: s.
Proof.
  induction rows as [|[[|c s] d] rest IH]; simpl; intros Hwf H r b Hin.
  - contradiction.
  - inversion Hwf; subst. simpl in *. discriminate.
  - destruct (Req_EM_T c 0) as [Hc|Hc].
    + destruct (find_pivot rest) as [[p oth]|] eqn:Hp; [discriminate|].
      destruct Hin as [Heq|Hin].
      * inversion Heq; subst. eauto.
      * inversion Hwf; subst. eauto.
    + discriminate.
Qed.

Lemma eliminate_wf n a r b others :
  length r = n -> wf_rows (S n) others ->
  wf_rows n (map (eliminate (a, r, b)) others).
Proof.
  intros Hr Hwf. unfold wf_rows in *. rewrite Forall_map.
  eapply Forall_impl; [|exact Hwf].
  intros [[|c s] d]; simpl; intros Hl; [discriminate|].
  rewrite vsub_length; rewrite ?vscale_length; lia.
Qed.

Lemma wf_rows_in n rows r b : wf_rows n rows -> In (r, b) rows -> length r = n.
Proof.
  intros Hwf Hin. unfold wf_rows in Hwf. rewrite Forall_forall in Hwf.
  exact (Hwf _ Hin).
Qed.


(** When the solver returns, the homogeneous system has only the zero
    solution: the matrix is not singular. *)
Lemma gauss_unique : forall n rows xs,
  wf_rows n rows -> gauss n rows = Some xs ->
  forall x, length x = n -> (forall r b, In (r, b) rows -> dot r x = 0) ->
  x = zeros n.
Proof.
  induction n as [|n IH]; intros rows xs Hwf H x Hx Hhom; simpl in H.
  - destruct x; [reflexivity|discriminate].
  - destruct (find_pivot rows) as [[[[a r] b] others]|] eqn:Hp; [|discriminate].
    destruct (gauss n (map (eliminate (a, r, b)) others)) as [ys|] eqn:Hg;
      [|discriminate].
    destruct (find_pivot_some _ _ _ _ _ Hp) as (Ha & _ & Hin).
    assert (Hr : length r = n).
    { assert (Hl := wf_rows_in _ _ (a :: r) b Hwf (proj2 (Hin _) (or_introl eq_refl))).
      simpl in Hl. lia. }
    assert (Hwfo : wf_rows (S n) others).
    { unfold wf_rows in *. rewrite Forall_forall in *. intros e He.
      apply Hwf. apply Hin. auto. }
    destruct x as [|x0 x]; [discriminate|]. simpl in Hx.
    assert (Hpiv : a * x0 + dot r x = 0).
    { apply (Hhom (a :: r) b). apply Hin. auto. }
    assert (Htail : x = zeros n).
    { apply (IH _ _ (eliminate_wf n a r b others Hr Hwfo) Hg); [lia|].
      intros s d Hsd. apply in_map_iff in Hsd.
      destruct Hsd as ([[|c t] e] & Heq & Ho).
      - apply (wf_rows_in _ _ _ _ Hwfo) in Ho. discriminate.
      - simpl in Heq. inversion Heq; subst s d; clear Heq.
        assert (Hlt := wf_rows_in _ _ _ _ Hwfo Ho). simpl in Hlt.
        rewrite dot_vsub by (rewrite vscale_length; lia).
        rewrite dot_vscale.
        assert (Hrow : c * x0 + dot t x = 0).
        { apply (Hhom (c :: t) e). apply Hin. auto. }
        assert (Hx0 : x0 = - dot r x / a) by (field_simplify_eq; [lra|exact Ha]).
        rewrite Hx0 in Hrow.
        replace (c * (- dot r x / a)) with (- (c / a * dot r x)) in Hrow
          by (field; exact Ha).
        lra. }
    subst x. rewrite dot_zeros_r in Hpiv.
    assert (x0 = 0) by nra. subst x0. reflexivity.
Qed.

Lemma zeros_S n : zeros (S n) = 0 :: zeros n.
Proof. reflexivity. Qed.

(** When the solver raises, the homogeneous system has a non-zero solution. *)
Lemma gauss_complete : forall n rows,
  wf_rows n rows -> length rows = n -> gauss n rows = None ->
  exists x, length x = n /\ x <> zeros n /\
            forall r b, In (r, b) rows -> dot r x = 0.
Proof.
  induction n as [|n IH]; intros rows Hwf Hlen H; simpl in H.
  - destruct rows; discriminate.
  - destruct (find_pivot rows) as [[[[a r] b] others]|] eqn:Hp.
    + destruct (gauss n (map (eliminate (a, r, b)) others)) as [ys|] eqn:Hg;
        [discriminate|].
      destruct (find_pivot_some _ _ _ _ _ Hp) as (Ha & Hl & Hin).
      assert (Hr : length r = n).
      { assert (Hl' := wf_rows_in _ _ (a :: r) b Hwf (proj2 (Hin _) (or_introl eq_refl))).
        simpl in Hl'. lia. }
      assert (Hwfo : wf_rows (S n) others).
      { unfold wf_rows in *. rewrite Forall_forall in *. intros e He.
        apply Hwf. apply Hin. auto. }
      destruct (IH _ (eliminate_wf n a r b others Hr Hwfo)
                  ltac:(rewrite length_map; lia) Hg) as (x & Hx & Hnz & Hhom).
      exists (- dot r x / a :: x). split; [simpl; lia|]. split.
      { rewrite zeros_S. intros Heq. inversion Heq. contradiction. }
      intros s d Hsd. apply Hin in Hsd. destruct Hsd as [Heq|Ho].
      * inversion Heq; subst. simpl. field. exact Ha.
      * assert (Hls := wf_rows_in _ _ _ _ Hwfo Ho).
        destruct s as [|c s]; [discriminate|]. simpl in Hls.
        assert (He : In (eliminate (a, r, b) (c :: s, d))
                        (map (eliminate (a, r, b)) others)) by (apply in_map; exact Ho).
        simpl in He. apply Hhom in He.
        rewrite dot_vsub in He by (rewrite vscale_length; lia).
        rewrite dot_vscale in He. simpl.
        replace (c * (- dot r x / a)) with (- (c / a * dot r x))
          by (field; exact Ha).
        lra.
    + exists (1 :: zeros n). split; [simpl; unfold zeros; rewrite repeat_length; lia|].
      split.
      { rewrite zeros_S. intros Heq. inversion Heq. lra. }
      intros r b Hrb. destruct (find_pivot_none n rows Hwf Hp r b Hrb) as (s & ->).
      simpl. rewrite dot_zeros_r. ring.
Qed.

Lemma is_square_spec n A : is_square n A = true <-> square n A.
Proof.
  unfold is_square, square. rewrite andb_true_iff, Nat.eqb_eq, forallb_forall, Forall_forall.
  split; intros [H1 H2]; split; auto; intros r Hr.
  - apply Nat.eqb_eq. auto.
  - apply Nat.eqb_eq. auto.
Qed.

Lemma combine_wf n A : forall b,
  Forall (fun r => length r = n) A -> wf_rows n (combine A b).
Proof.
  induction A as [|r A IH]; intros [|c b] H; simpl; try constructor.
  - inversion H; subst. reflexivity.
  - apply IH. inversion H; assumption.
Qed.


Lemma combine_homogeneous A : forall (b : vector) x, length A = length b ->
  (forall r c, In (r, c) (combine A b) -> dot r x = 0) <->
  mat_vec A x = zeros (length A).
Proof.
  induction A as [|r A IH]; intros [|c b] x Hl; simpl in *; try discriminate.
  - split; [reflexivity|]. intros _ _ _ [].
  - rewrite zeros_S. split.
    + intros H. f_equal; [apply (H r c); auto|].
      apply (IH b); [lia|]. intros s d Hs. apply (H s d). auto.
    + intros H s d [Heq|Hs]; injection H as H1 H2.
      * inversion Heq; subst. exact H1.
      * revert s d Hs. apply (IH b); [lia|]. assumption.
Qed.


Lemma linalg_solve_error A b e : linalg_solve A b = Raise e -> e = LinAlgError.
Proof.
  unfold linalg_solve. destruct (is_square _ _); [|congruence].
  destruct (gauss _ _); congruence.
Qed.

(** On a square system the solver raises exactly when the matrix is
    singular. *)
Lemma linalg_solve_raises_iff n A b :
  square n A -> length b = n ->
  (linalg_solve A b = Raise LinAlgError <-> singular A).
Proof.
  intros Hsq Hb. subst n. pose proof Hsq as [Hl Hrows].
  unfold linalg_solve. rewrite (proj2 (is_square_spec _ _) Hsq).
  destruct (gauss (length b) (combine A b)) as [y|] eqn:Hg; split.
  - discriminate.
  - intros (x & Hx & Hnz & Hhom). exfalso. apply Hnz. rewrite Hl.
    apply (gauss_unique _ _ _ (combine_wf _ A b Hrows) Hg); [congruence|].
    apply combine_homogeneous; assumption.
  - intros _.
    assert (Hc : length (combine A b) = length b) by (rewrite length_combine; lia).
    destruct (gauss_complete _ _ (combine_wf _ A b Hrows) Hc Hg)
      as (x & Hx & Hnz & Hhom).
    exists x. rewrite Hl. repeat split; auto.
    rewrite <- Hl. apply (combine_homogeneous A b); assumption.
  - reflexivity.
Qed.

(** ** The ridge system [cov + lam * I] *)

Lemma dot_unit_row i : forall x s,
  dot (map (fun j => if Nat.eqb i j then 1 else 0) (seq s (length x))) x =
  if (s <=? i)%nat && (i <? s + length x)%nat then nth (i - s) x 0 else 0.
Proof.
  induction x as [|a x IH]; intros s; simpl.
  - destruct (s <=? i)%nat eqn:H1; destruct (i <? s + 0)%nat eqn:H2; simpl; try reflexivity.
    apply Nat.leb_le in H1. apply Nat.ltb_lt in H2. lia.
  - rewrite IH. destruct (Nat.eqb i s) eqn:His.
    + apply Nat.eqb_eq in His. subst s.
      replace (S i <=? i)%nat with false by (symmetry; apply Nat.leb_gt; lia).
      replace (i <=? i)%nat with true by (symmetry; apply Nat.leb_le; lia).
      replace (i <? i + S (length x))%nat with true by (symmetry; apply Nat.ltb_lt; lia).
      rewrite Nat.sub_diag. simpl. ring.
    + apply Nat.eqb_neq in His.
      destruct (S s <=? i)%nat eqn:H1.
      * apply Nat.leb_le in H1.
        replace (s <=? i)%nat with true by (symmetry; apply Nat.leb_le; lia).
        replace (i <? s + S (length x))%nat with (i <? S s + length x)%nat
          by (f_equal; lia).
        simpl. destruct (i <? S (s + length x))%nat; [|ring].
        replace (i - s)%nat with (S (i - S s)) by lia. simpl. ring.
      * apply Nat.leb_gt in H1.
        replace (s <=? i)%nat with false by (symmetry; apply Nat.leb_gt; lia).
        simpl. ring.
Qed.

Lemma map_nth_seq_shift : forall (x : vector) s,
  map (fun i => nth (i - s) x 0) (seq s (length x)) = x.
Proof.
  induction x as [|a x IH]; intros s; simpl; [reflexivity|].
  rewrite Nat.sub_diag. f_equal.
  transitivity (map (fun i => nth (i - S s) x 0) (seq (S s) (length x)));
    [|apply IH].
  apply map_ext_in. intros i Hi.
  apply in_seq in Hi. replace (i - s)%nat with (S (i - S s)) by lia. reflexivity.
Qed.

Lemma mat_vec_eye x : mat_vec (eye (length x)) x = x.
Proof.
  unfold mat_vec, eye. rewrite map_map.
  transitivity (map (fun i => nth (i - 0) x 0) (seq 0 (length x)));
    [|apply map_nth_seq_shift].
  apply map_ext_in. intros i Hi.
  apply in_seq in Hi. rewrite dot_unit_row.
  replace (0 <=? i)%nat with true by (symmetry; apply Nat.leb_le; lia).
  replace (i <? 0 + length x)%nat with true by (symmetry; apply Nat.ltb_lt; lia).
  reflexivity.
Qed.

Lemma eye_square n : square n (eye n).
Proof.
  unfold square, eye. split.
  - rewrite length_map, length_seq. reflexivity.
  - rewrite Forall_map. apply Forall_forall. intros i _.
    rewrite length_map, length_seq. reflexivity.
Qed.

Lemma mat_scale_square n c A : square n A -> square n (mat_scale c A).
Proof.
  unfold square, mat_scale. intros [Hl Hr]. split.
  - rewrite length_map. exact Hl.
  - rewrite Forall_map. eapply Forall_impl; [|exact Hr].
    intros r Hlr. simpl. rewrite vscale_length. exact Hlr.
Qed.

Lemma mat_vec_scale c A x : mat_vec (mat_scale c A) x = vscale c (mat_vec A x).
Proof.
  unfold mat_vec, mat_scale, vscale. rewrite !map_map. apply map_ext.
  intros r. apply dot_vscale.
Qed.

Lemma mat_vec_add n : forall A B x, square n A -> square n B ->
  mat_vec (mat_add A B) x = vadd (mat_vec A x) (mat_vec B x).
Proof.
  intros A B x [HlA HrA] [HlB HrB]. rewrite <- HlB in HlA. clear HlB.
  revert B HlA HrB. induction A as [|r A IH]; intros [|s B] Hl HrB;
    simpl in *; try discriminate; [reflexivity|].
  inversion HrA; subst. inversion HrB; subst.
  rewrite dot_vadd by congruence. f_equal. apply IH; auto.
Qed.

Lemma mat_add_square n A B : square n A -> square n B -> square n (mat_add A B).
Proof.
  intros [HlA HrA] [HlB HrB]. rewrite <- HlB in HlA.
  assert (H : length (mat_add A B) = length B /\
              Forall (fun r => length r = n) (mat_add A B)).
  { clear HlB. revert B HlA HrB. induction A as [|r A IH]; intros [|s B] Hl HrB;
      simpl in *; try discriminate; [split; [reflexivity|constructor]|].
    inversion HrA; subst. inversion HrB; subst.
    destruct (IH H2 B) as [IH1 IH2]; auto.
    split; [congruence|]. constructor; [|exact IH2].
    rewrite vadd_length; congruence. }
  destruct H. split; congruence.
Qed.

Lemma ridge_square n cov lam :
  square n cov -> square n (mat_add cov (mat_scale lam (eye n))).
Proof.
  intros H. apply mat_add_square; [exact H|].
  apply mat_scale_square, eye_square.
Qed.

Lemma mat_vec_length A x : length (mat_vec A x) = length A.
Proof. apply length_map. Qed.

(** The quadratic and bilinear forms of the ridge system. *)
Lemma ridge_form n cov lam x w :
  square n cov -> length w = n -> length x = n ->
  dot x (mat_vec (mat_add cov (mat_scale lam (eye n))) w) =
  dot x (mat_vec cov w) + lam * dot x w.
Proof.
  intros Hsq Hw Hx.
  rewrite (mat_vec_add n) by (auto using mat_scale_square, eye_square).
  rewrite mat_vec_scale. subst n. rewrite mat_vec_eye.
  rewrite (dot_comm x), dot_vadd, dot_vscale, !(dot_comm _ x); [ring|].
  rewrite vscale_length, mat_vec_length. destruct Hsq. congruence.
Qed.


Lemma ridge_single F cov lam :
  ridge_markowitz_weights F cov [lam] =
  (w <- linalg_solve (mat_add cov (mat_scale lam (eye (length F)))) F ;;
   Ok [(lam, w)]).
Proof.
  unfold ridge_markowitz_weights. simpl.
  destruct (linalg_solve _ F); reflexivity.
Qed.




(** With a positive penalty and a positive semidefinite covariance the
    system is never singular, so the solver returns. *)
Lemma ridge_weights_exist F cov lam :
  square (length F) cov -> psd cov -> 0 < lam ->
  exists w, ridge_markowitz_weights F cov [lam] = Ok [(lam, w)].
Proof.
  intros Hsq Hpsd Hlam. rewrite ridge_single.
  destruct (linalg_solve _ F) as [w|e] eqn:Hs; [exists w; reflexivity|].
  exfalso. pose proof (linalg_solve_error _ _ _ Hs); subst e.
  apply (linalg_solve_raises_iff (length F)) in Hs;
    [|apply ridge_square; exact Hsq|reflexivity].
  destruct Hs as (x & Hx & Hnz & Hhom).
  pose proof (ridge_square _ _ lam Hsq) as [HlQ _]. rewrite HlQ in *.
  assert (Hq : dot x (mat_vec (mat_add cov (mat_scale lam (eye (length F)))) x) = 0).
  { rewrite Hhom. apply dot_zeros_r. }
  rewrite (ridge_form (length F)) in Hq by assumption.
  assert (Hp : 0 <= dot x (mat_vec cov x)).
  { apply Hpsd. destruct Hsq. congruence. }
  pose proof (dot_self_nonneg x) as Hxx.
  assert (Hz : dot x x = 0) by nra.
  apply dot_self_zero in Hz. rewrite Hx in Hz. contradiction.
Qed.



(** ** The random feature map *)

Lemma hstack_map {A} (f g : A -> list R) (l : list A) :
  hstack (map f l) (map g l) = map (fun x => f x ++ g x) l.
Proof. induction l as [|x l IH]; simpl; [reflexivity|]. rewrite IH. reflexivity. Qed.

Lemma nth_map_seq (f : nat -> R) n j :
  (j < n)%nat -> nth j (map f (seq 0 n)) 0 = f j.
Proof.
  intros Hj. rewrite (nth_indep _ 0 (f 0%nat)) by (rewrite length_map, length_seq; exact Hj).
  rewrite map_nth, seq_nth by exact Hj. reflexivity.
Qed.

Lemma draw_row_length G n : forall g, length (fst (draw_row G n g)) = n.
Proof.
  induction n as [|n IH]; intros g; simpl; [reflexivity|].
  destruct (standard_normal G g) as [x g1].
  specialize (IH g1). destruct (draw_row G n g1) as [xs g2]. simpl in *. congruence.
Qed.

Lemma draw_rows_shape G k n : forall g,
  length (fst (draw_rows G k n g)) = k /\
  Forall (fun r => length r = n) (fst (draw_rows G k n g)).
Proof.
  induction k as [|k IH]; intros g; simpl; [split; [reflexivity|constructor]|].
  pose proof (draw_row_length G n g) as Hr.
  destruct (draw_row G n g) as [r g1].
  specialize (IH g1). destruct (draw_rows G k n g1) as [rs g2]. simpl in *.
  destruct IH as [IH1 IH2]. split; [congruence|]. constructor; assumption.
Qed.

Lemma apply_projection_rows X n omega gamma :
  (1 <= n)%Z ->
  apply_projection X n (omega, gamma) =
  Ok (map (feature_row (Z.to_nat n) omega gamma (sqrt (2 / IZR n))) X).
Proof.
  intros Hn. unfold apply_projection, py_div.
  replace (n =? 0)%Z with false by (symmetry; apply Z.eqb_neq; lia).
  simpl. f_equal. unfold mat_scale, mat_map, matmul, vscale.
  rewrite !map_map, hstack_map. apply map_ext. intros x.
  unfold feature_row. rewrite !map_map. reflexivity.
Qed.

(** [rff_features] draws the projection from the seed and the shape, then
    applies it. *)
Lemma rff_features_factor G X names n cfg :
  rff_features G X names n cfg =
  (p <- draw_projection G (rff_random_seed cfg) (length names) n ;;
   apply_projection (to_numpy X names) n p).
Proof.
  unfold rff_features, draw_projection, apply_projection.
  destruct (rng_normal G _ _ n) as [[omega rng1]|e]; simpl; [|reflexivity].
  destruct (rng_choice G rng1 gamma_candidates) as [gamma rng2]. simpl.
  destruct (py_div 2 n); reflexivity.
Qed.

Lemma draw_projection_ok G seed k n :
  (0 <= n)%Z ->
  exists omega gamma,
    draw_projection G seed k n = Ok (omega, gamma) /\
    length omega = k /\ Forall (fun r => length r = Z.to_nat n) omega.
Proof.
  intros Hn. unfold draw_projection, rng_normal.
  replace (n <? 0)%Z with false by (symmetry; apply Z.ltb_ge; lia).
  simpl. pose proof (draw_rows_shape G k (Z.to_nat n) (default_rng G seed)) as Hs.
  destruct (draw_rows G k (Z.to_nat n) (default_rng G seed)) as [omega g1].
  simpl in *. eauto.
Qed.

Lemma feature_row_spec n omega gamma s x :
  0 <= s ->
  length (feature_row n omega gamma s x) = (2 * n)%nat /\
  (forall j, (j < n)%nat ->
     nth j (feature_row n omega gamma s x) 0 =
       s * cos (dot x (column j omega) * gamma) /\
     nth (n + j) (feature_row n omega gamma s x) 0 =
       s * sin (dot x (column j omega) * gamma)) /\
  Forall (fun v => - s <= v <= s) (feature_row n omega gamma s x).
Proof.
  intros Hs. unfold feature_row. split; [|split].
  - rewrite length_app, !length_map, length_seq. lia.
  - intros j Hj. split.
    + rewrite app_nth1 by (rewrite length_map, length_seq; exact Hj).
      apply (nth_map_seq (fun j => s * cos (dot x (column j omega) * gamma))). exact Hj.
    + rewrite app_nth2 by (rewrite length_map, length_seq; lia).
      rewrite length_map, length_seq.
      replace (n + j - n)%nat with j by lia.
      apply (nth_map_seq (fun j => s * sin (dot x (column j omega) * gamma))). exact Hj.
  - apply Forall_app. split; apply Forall_map, Forall_forall; intros j _.
    + pose proof (COS_bound (dot x (column j omega) * gamma)). nra.
    + pose proof (SIN_bound (dot x (column j omega) * gamma)). nra.
Qed.

(** C5.  For every exposure frame and every feature count [n >= 1] the
    mapper returns a matrix with one row per asset and exactly [2 n] columns:
    column [j] is [sqrt (2/n) * cos (P j)] and column [n + j] is
    [sqrt (2/n) * sin (P j)], where [P = X . omega * gamma], and every entry lies
    between [- sqrt (2/n)] and [sqrt (2/n)]. *)
Theorem rff_features_layout G X names n cfg :
  (1 <= n)%Z ->
  exists omega gamma feats,
    draw_projection G (rff_random_seed cfg) (length names) n = Ok (omega, gamma) /\
    length omega = length names /\ Forall (fun r => length r = Z.to_nat n) omega /\
    rff_features G X names n cfg = Ok feats /\
    length feats = length X /\
    forall a rec, nth_error X a = Some rec ->
      exists row,
        nth_error feats a = Some row /\
        length row = (2 * Z.to_nat n)%nat /\
        (forall j, (j < Z.to_nat n)%nat ->
           nth j row 0 =
             sqrt (2 / IZR n) * cos (dot (map rec names) (column j omega) * gamma) /\
           nth (Z.to_nat n + j) row 0 =
             sqrt (2 / IZR n) * sin (dot (map rec names) (column j omega) * gamma)) /\
        Forall (fun v => - sqrt (2 / IZR n) <= v <= sqrt (2 / IZR n)) row.
Proof.
  intros Hn.
  destruct (draw_projection_ok G (rff_random_seed cfg) (length names) n)
    as (omega & gamma & Hd & Hlen & Hrows); [lia|].
  exists omega, gamma.
  eexists. split; [exact Hd|]. split; [exact Hlen|]. split; [exact Hrows|].
  split.
  { rewrite rff_features_factor, Hd. simpl. apply apply_projection_rows. exact Hn. }
  split.
  { unfold to_numpy. rewrite !length_map. reflexivity. }
  intros a rec Ha. eexists. split.
  { unfold to_numpy. rewrite map_map. apply map_nth_error. exact Ha. }
  apply feature_row_spec. apply sqrt_pos.
Qed.

(** ** Loops that may raise *)

Lemma for_collect_hoist {A B C} (m : result C) (f : C -> A -> result B) (l : list A) :
  l <> [] ->
  for_collect (fun a => c <- m ;; f c a) l = (c <- m ;; for_collect (f c) l).
Proof.
  intros Hl. destruct m as [c|e]; simpl.
  - apply f_equal. reflexivity.
  - destruct l; [contradiction|reflexivity].
Qed.

Lemma for_collect_ok_inv {A B} (f : A -> result B) (l : list A) : forall bs,
  for_collect f l = Ok bs -> Forall2 (fun a b => f a = Ok b) l bs.
Proof.
  induction l as [|a l IH]; simpl; intros bs H.
  - inversion H. constructor.
  - destruct (f a) as [b|e] eqn:Hf; simpl in H; [|discriminate].
    destruct (for_collect f l) as [bs'|e]; simpl in H; [|discriminate].
    inversion H; subst. constructor; auto.
Qed.

Lemma for_collect_returns {A B} (f : A -> result B) (l : list A) :
  (forall a, In a l -> exists b, f a = Ok b) -> exists bs, for_collect f l = Ok bs.
Proof.
  induction l as [|a l IH]; simpl; intros H; [eauto|].
  destruct (H a (or_introl eq_refl)) as [b Hb]. rewrite Hb. simpl.
  destruct IH as [bs Hbs]; [intros; apply H; auto|]. rewrite Hbs. simpl. eauto.
Qed.

Lemma for_collect_returns_map {A B C} (f : A -> result C) (g : B -> C) (l : list A) :
  (forall a, In a l -> exists b, f a = Ok (g b)) ->
  exists bs, for_collect f l = Ok (map g bs).
Proof.
  induction l as [|a l IH]; simpl; intros H; [exists []; reflexivity|].
  destruct (H a (or_introl eq_refl)) as [b Hb]. rewrite Hb. simpl.
  destruct IH as [bs Hbs]; [intros; apply H; auto|]. rewrite Hbs. simpl.
  exists (b :: bs). reflexivity.
Qed.

Lemma for_collect_raises {A B} (f : A -> result B) (l : list A) a e :
  In a l -> f a = Raise e -> exists e', for_collect f l = Raise e'.
Proof.
  induction l as [|x l IH]; simpl; intros Hin Hf; [contradiction|].
  destruct (f x) as [b|e0] eqn:Hx; simpl; [|eauto].
  destruct Hin as [->|Hin]; [congruence|].
  destruct (IH Hin Hf) as [e' He']. rewrite He'. simpl. eauto.
Qed.

Lemma for_each_returns {A S} (body : A -> S -> result S) (l : list A) :
  (forall a s, In a l -> exists s', body a s = Ok s') ->
  forall s, exists s', for_each body l s = Ok s'.
Proof.
  induction l as [|a l IH]; simpl; intros H s; [eauto|].
  destruct (H a s (or_introl eq_refl)) as [s1 H1]. rewrite H1. simpl.
  apply IH. intros; apply H; auto.
Qed.

Lemma for_each_raises {A S} (body : A -> S -> result S) (l : list A) a :
  In a l -> (forall s, exists e, body a s = Raise e) ->
  forall s, exists e, for_each body l s = Raise e.
Proof.
  induction l as [|x l IH]; simpl; intros Hin Hf s; [contradiction|].
  destruct (body x s) as [s1|e0] eqn:Hx; simpl; [|eauto].
  destruct Hin as [->|Hin].
  - destruct (Hf s) as [e He]. congruence.
  - apply IH; assumption.
Qed.

(** ** Result tables *)

Lemma label_eqb_eq a b : label_eqb a b = true <-> a = b.
Proof. unfold label_eqb. destruct (Req_EM_T a b); split; congruence. Qed.

Lemma label_eqb_refl a : label_eqb a a = true.
Proof. apply label_eqb_eq. reflexivity. Qed.

Lemma lookup_col_set lam' lam v : forall cols r,
  lookup_col lam' cols
    (map (fun '(c, x) => if label_eqb c lam then v else x) (combine cols r)) =
  option_map (fun x => if label_eqb lam' lam then v else x) (lookup_col lam' cols r).
Proof.
  induction cols as [|c cols IH]; intros [|x r]; simpl; try reflexivity.
  destruct (label_eqb c lam') eqn:Hc.
  - apply label_eqb_eq in Hc. subst c. reflexivity.
  - apply IH.
Qed.

Lemma lookup_row_set n' n (g : list (option R) -> list (option R)) : forall idx rows,
  lookup_row n' idx
    (map (fun '(i, r) => if (i =? n)%Z then g r else r) (combine idx rows)) =
  option_map (fun r => if (n' =? n)%Z then g r else r) (lookup_row n' idx rows).
Proof.
  induction idx as [|i idx IH]; intros [|r rows]; simpl; try reflexivity.
  destruct (i =? n')%Z eqn:Hi.
  - apply Z.eqb_eq in Hi. subst i. reflexivity.
  - apply IH.
Qed.

Lemma loc_loc_set t n lam v n' lam' :
  loc (loc_set t n lam v) n' lam' =
  option_map (fun x => if (n' =? n)%Z && label_eqb lam' lam then v else x)
             (loc t n' lam').
Proof.
  unfold loc, loc_set. simpl.
  rewrite (lookup_row_set n' n
             (fun r => map (fun '(c, x) => if label_eqb c lam then v else x)
                           (combine (columns t) r))).
  destruct (lookup_row n' (index t) (cells t)) as [r|]; simpl; [|reflexivity].
  destruct (n' =? n)%Z; simpl.
  - apply lookup_col_set.
  - destruct (lookup_col lam' (columns t) r); reflexivity.
Qed.

Lemma loc_new_frame idx cols n lam :
  In n idx -> In lam cols -> loc (new_frame idx cols) n lam = Some None.
Proof.
  intros Hn Hl. unfold loc, new_frame. simpl.
  assert (Hr : lookup_row n idx (map (fun _ : Z => map (fun _ : R => @None R) cols) idx)
               = Some (map (fun _ => None) cols)).
  { induction idx as [|i idx IH]; simpl in *; [contradiction|].
    destruct (i =? n)%Z eqn:Hi; [reflexivity|].
    destruct Hn as [->|Hn]; [rewrite Z.eqb_refl in Hi; discriminate|auto]. }
  rewrite Hr. clear Hr.
  induction cols as [|c cols IH]; simpl in *; [contradiction|].
  destruct (label_eqb c lam) eqn:Hc; [reflexivity|].
  destruct Hl as [->|Hl]; [rewrite label_eqb_refl in Hc; discriminate|auto].
Qed.

Lemma for_collect_ext {A B} (f g : A -> result B) (l : list A) :
  (forall a, f a = g a) -> for_collect f l = for_collect g l.
Proof.
  intros H. induction l as [|a l IH]; simpl; [reflexivity|].
  rewrite H, IH. reflexivity.
Qed.

Section SweepFacts.

Variable G : Generator.
Variable pls_fit_transform : matrix -> vector -> Z -> result matrix.
Variable factor_names : list string.
Variable cfg : ExperimentConfig.
Variable use_pls : bool.

Local Abbreviation day_ret := (day_return G pls_fit_transform factor_names cfg use_pls).
Local Abbreviation day_ret_with := (day_return_with pls_fit_transform factor_names cfg use_pls).
Local Abbreviation cell_rets := (cell_returns G pls_fit_transform factor_names cfg use_pls).
Local Abbreviation sweep := (run_sharpe_sweep G pls_fit_transform factor_names cfg use_pls).

Lemma day_return_factor n lam day_df :
  day_ret n lam day_df =
  (p <- draw_projection G (random_seed cfg) (length factor_names) n ;;
   day_ret_with p n lam day_df).
Proof.
  unfold day_return, day_return_with.
  rewrite rff_features_factor. simpl.
  destruct (draw_projection G (random_seed cfg) (length factor_names) n); reflexivity.
Qed.

(** C4.  The mapper is a function of the seed, the shape and the exposures:
    it draws [omega] and [gamma] from a generator it seeds itself, so two
    invocations with the same seed and the same feature count use the same
    [omega] and [gamma] and return the same output; hence, in the sweep, one
    projection per feature count serves every trading day and every lambda. *)
Theorem projection_fixed_per_feature_count :
  (forall X names n rcfg,
     rff_features G X names n rcfg =
     (p <- draw_projection G (rff_random_seed rcfg) (length names) n ;;
      apply_projection (to_numpy X names) n p)) /\
  (forall X names n rcfg out1 out2,
     rff_features G X names n rcfg = Ok out1 ->
     rff_features G X names n rcfg = Ok out2 -> out1 = out2) /\
  (forall n lam day_df,
     day_ret n lam day_df =
     (p <- draw_projection G (random_seed cfg) (length factor_names) n ;;
      day_ret_with p n lam day_df)) /\
  (forall df days n lam, days <> [] ->
     cell_rets df days n lam =
     (p <- draw_projection G (random_seed cfg) (length factor_names) n ;;
      for_collect (fun day => day_ret_with p n lam (day_slice df day)) days)).
Proof.
  split; [|split; [|split]].
  - intros. apply rff_features_factor.
  - intros X names n rcfg out1 out2 H1 H2. congruence.
  - intros. apply day_return_factor.
  - intros df days n lam Hd. unfold cell_returns.
    rewrite <- (for_collect_hoist _
                  (fun p day => day_ret_with p n lam (day_slice df day))) by exact Hd.
    apply for_collect_ext. intros day. apply day_return_factor.
Qed.

End SweepFacts.

(** ** Mean, standard deviation, Sharpe ratio *)

Lemma np_std_population rs : np_std rs 0 = population_std rs.
Proof.
  unfold np_std, population_std, np_mean.
  destruct (all_present rs) as [[|v vs]|]; reflexivity.
Qed.






(** The series 1, 2, 3: the squared deviations sum to 2 and are divided by
    3, not by 2. *)
Lemma np_std_hand_computed :
  np_std [Some 1; Some 2; Some 3] 0 = Some (sqrt (2 / 3)).
Proof.
  unfold np_std, np_mean. simpl. f_equal. f_equal. field.
Qed.

(** ** What the sweep writes into its tables *)

(** The sweep, with the prepared frame and its trading days named. *)
Lemma run_sharpe_sweep_loops G pls_fit_transform factor_names cfg use_pls panel :
  run_sharpe_sweep G pls_fit_transform factor_names cfg use_pls panel =
  ('(mean_df, std_df, sharpe_df) <-
     for_each (fun n st =>
                 for_each (fun lam st =>
                             sweep_cell G pls_fit_transform factor_names cfg use_pls
                                        (prepared panel) (trading_days_of panel) n lam st)
                          (lambdas cfg) st)
              (n_factors_range cfg)
              (new_frame (n_factors_range cfg) (lambdas cfg),
               new_frame (n_factors_range cfg) (lambdas cfg),
               new_frame (n_factors_range cfg) (lambdas cfg)) ;;
   Ok {| sharpe := sharpe_df; mean := mean_df; std := std_df |}).
Proof. reflexivity. Qed.


Section SweepCells.

Variable G : Generator.
Variable pls_fit_transform : matrix -> vector -> Z -> result matrix.
Variable factor_names : list string.
Variable cfg : ExperimentConfig.
Variable use_pls : bool.
Variable df : list DayRow.
Variable days : list Z.

Local Abbreviation cells := (cell_returns G pls_fit_transform factor_names cfg use_pls df days).
Local Abbreviation cell_body :=
  (sweep_cell G pls_fit_transform factor_names cfg use_pls df days).

Lemma sweep_cell_step n lam st st' :
  cell_body n lam st = Ok st' ->
  (exists rs, cells n lam = Ok rs) /\
  keeps has_cell st st' /\
  keeps (recorded cells) st st' /\
  (has_cell st n lam -> recorded cells st' n lam).
Proof.
  destruct st as [[m s] sh]. unfold sweep_cell.
  destruct (cells n lam) as [rs|e] eqn:Hc; simpl; [|discriminate].
  intros H; inversion H; subst st'; clear H.
  split; [eauto|]. split; [|split].
  - intros n' lam' (H1 & H2 & H3). unfold has_cell. rewrite !loc_loc_set.
    destruct (loc m n' lam'), (loc s n' lam'), (loc sh n' lam');
      try contradiction; repeat split; discriminate.
  - intros n' lam' (rs' & Hc' & H1 & H2 & H3). exists rs'.
    rewrite !loc_loc_set, H1, H2, H3. simpl.
    destruct ((n' =? n)%Z && label_eqb lam' lam) eqn:Hk; [|auto].
    apply andb_true_iff in Hk. destruct Hk as [Hn Hl].
    apply Z.eqb_eq in Hn. apply label_eqb_eq in Hl. subst n' lam'.
    rewrite Hc in Hc'. inversion Hc'; subst rs'. auto.
  - intros (H1 & H2 & H3). exists rs. rewrite !loc_loc_set.
    rewrite Z.eqb_refl, label_eqb_refl. simpl.
    destruct (loc m n lam), (loc s n lam), (loc sh n lam); try contradiction.
    auto.
Qed.

Lemma lambda_loop n : forall lams st st',
  for_each (fun lam st => cell_body n lam st) lams st = Ok st' ->
  (forall lam, In lam lams -> exists rs, cells n lam = Ok rs) /\
  keeps has_cell st st' /\
  keeps (recorded cells) st st' /\
  (forall lam, In lam lams -> has_cell st n lam -> recorded cells st' n lam).
Proof.
  induction lams as [|lam lams IH]; simpl; intros st st' H.
  - inversion H; subst. repeat split; try (intros ? ? ?; assumption).
    + intros ? [].
    + intros ? [].
  - destruct (cell_body n lam st) as [st1|e] eqn:H1; simpl in H; [|discriminate].
    destruct (sweep_cell_step _ _ _ _ H1) as (Hrs & Hh & Hr & Hnew).
    destruct (IH _ _ H) as (Hrs' & Hh' & Hr' & Hnew').
    split; [|split; [|split]].
    + intros l [<-|Hl]; auto.
    + intros n' l' Hc. apply Hh', Hh, Hc.
    + intros n' l' Hc. apply Hr', Hr, Hc.
    + intros l [<-|Hl] Hc.
      * apply Hr', Hnew, Hc.
      * apply Hnew'; [exact Hl|]. apply Hh, Hc.
Qed.

Lemma feature_count_loop lams : forall ns st st',
  for_each (fun n st => for_each (fun lam st => cell_body n lam st) lams st) ns st
    = Ok st' ->
  keeps has_cell st st' /\
  keeps (recorded cells) st st' /\
  (forall n lam, In n ns -> In lam lams ->
     has_cell st n lam -> recorded cells st' n lam).
Proof.
  induction ns as [|n ns IH]; simpl; intros st st' H.
  - inversion H; subst. repeat split; try (intros ? ? ?; assumption).
    intros ? ? [].
  - destruct (for_each (fun lam st => cell_body n lam st) lams st) as [st1|e] eqn:H1;
      simpl in H; [|discriminate].
    destruct (lambda_loop _ _ _ _ H1) as (_ & Hh & Hr & Hnew).
    destruct (IH _ _ H) as (Hh' & Hr' & Hnew').
    split; [|split].
    + intros n' l' Hc. apply Hh', Hh, Hc.
    + intros n' l' Hc. apply Hr', Hr, Hc.
    + intros n' l [<-|Hn] Hl Hc.
      * apply Hr', Hnew; assumption.
      * apply Hnew'; [exact Hn|exact Hl|]. apply Hh, Hc.
Qed.

End SweepCells.

Section SweepTables.

Variable G : Generator.
Variable pls_fit_transform : matrix -> vector -> Z -> result matrix.
Variable factor_names : list string.
Variable cfg : ExperimentConfig.
Variable use_pls : bool.

Local Abbreviation day_ret := (day_return G pls_fit_transform factor_names cfg use_pls).
Local Abbreviation cell_rets := (cell_returns G pls_fit_transform factor_names cfg use_pls).
Local Abbreviation sweep := (run_sharpe_sweep G pls_fit_transform factor_names cfg use_pls).

(** When the sweep returns, every cell of the grid holds the statistics of the
    daily returns collected for that cell. *)
Lemma sweep_records panel res :
  sweep panel = Ok res ->
  forall n lam, In n (n_factors_range cfg) -> In lam (lambdas cfg) ->
    recorded (cell_rets (prepared panel) (trading_days_of panel))
             (mean res, std res, sharpe res) n lam.
Proof.
  rewrite run_sharpe_sweep_loops. intros H n lam Hn Hl.
  match type of H with
  | bind ?loop _ = _ => destruct loop as [[[m s] sh]|e] eqn:Hloop
  end; simpl in H; [|discriminate].
  inversion H; subst res; clear H. simpl.
  destruct (feature_count_loop _ _ _ _ _ _ _ _ _ _ _ Hloop) as (_ & _ & Hnew).
  apply Hnew; [exact Hn|exact Hl|].
  unfold has_cell. rewrite !loc_new_frame by assumption.
  repeat split; discriminate.
Qed.


(** C10.  The trading days are computed once, from the filtered frame, before
    the loops over the grid: when the sweep returns, every cell holds the
    statistics of one daily return per trading day, taken over the same days
    in the same order, so every cell aggregates the same number of days. *)
Theorem cells_share_trading_days panel res n lam :
  sweep panel = Ok res ->
  In n (n_factors_range cfg) -> In lam (lambdas cfg) ->
  exists rs,
    Forall2 (fun day r => day_ret n lam (day_slice (prepared panel) day) = Ok r)
            (trading_days_of panel) rs /\
    length rs = length (trading_days_of panel) /\
    loc (mean res) n lam = Some (np_mean rs) /\
    loc (std res) n lam = Some (np_std rs 0) /\
    loc (sharpe res) n lam = Some (sharpe_ratio (np_mean rs) (np_std rs 0)).
Proof.
  intros H Hn Hl.
  destruct (sweep_records panel res H n lam Hn Hl) as (rs & Hc & Hm & Hs & Hsh).
  exists rs. apply for_collect_ok_inv in Hc.
  split; [exact Hc|]. split; [|auto].
  symmetry. eapply Forall2_length. exact Hc.
Qed.


(** C8.  The std entry of every cell is the population standard deviation
    of the cell's daily returns: the sum of squared deviations is divided by
    the number of days, not by that number minus one. *)
Theorem std_entry_is_population_std panel res n lam :
  sweep panel = Ok res ->
  In n (n_factors_range cfg) -> In lam (lambdas cfg) ->
  exists rs,
    cell_rets (prepared panel) (trading_days_of panel) n lam = Ok rs /\
    length rs = length (trading_days_of panel) /\
    loc (std res) n lam = Some (population_std rs).
Proof.
  intros H Hn Hl.
  destruct (sweep_records panel res H n lam Hn Hl) as (rs & Hc & Hm & Hs & Hsh).
  exists rs. split; [exact Hc|]. split.
  - apply for_collect_ok_inv in Hc. symmetry. eapply Forall2_length. exact Hc.
  - rewrite Hs. f_equal. apply np_std_population.
Qed.

End SweepTables.

(** ** The covariance is positive semidefinite; positive penalties never fail *)

Lemma zeros_length n : length (zeros n) = n.
Proof. apply repeat_length. Qed.

Lemma lincomb_length N : forall cs x,
  Forall (fun v => length v = N) cs -> length (lincomb N cs x) = N.
Proof.
  induction cs as [|c cs IH]; intros [|a x] H; simpl; try apply zeros_length.
  inversion H; subst. rewrite vadd_length; rewrite vscale_length; auto.
  rewrite IH; auto.
Qed.

Lemma dot_zeros_l n u : dot (zeros n) u = 0.
Proof. rewrite dot_comm. apply dot_zeros_r. Qed.

Lemma cov_row_dot N k u : forall cs x,
  Forall (fun v => length v = N) cs ->
  dot (map (fun v => dot u v / k) cs) x = dot u (lincomb N cs x) / k.
Proof.
  induction cs as [|c cs IH]; intros [|a x] H; simpl;
    rewrite ?dot_zeros_r; unfold Rdiv; try ring.
  inversion H; subst.
  rewrite IH by assumption.
  rewrite (dot_comm u (vadd _ _)), dot_vadd, dot_vscale, !(dot_comm _ u).
  - unfold Rdiv. ring.
  - rewrite vscale_length, lincomb_length; auto.
Qed.

Lemma cov_col_dot N k z : forall cs x,
  Forall (fun v => length v = N) cs ->
  dot x (map (fun u => dot u z / k) cs) = dot (lincomb N cs x) z / k.
Proof.
  induction cs as [|c cs IH]; intros [|a x] H; simpl;
    rewrite ?dot_zeros_l; unfold Rdiv; try ring.
  inversion H; subst.
  rewrite IH by assumption.
  rewrite dot_vadd, dot_vscale.
  - unfold Rdiv. ring.
  - rewrite vscale_length, lincomb_length; auto.
Qed.

Lemma np_cov_some N M : (2 <= N)%nat -> exists C, np_cov N M = Some C.
Proof.
  intros HN. unfold np_cov. destruct M; [eauto|].
  replace (N <? 2)%nat with false by (symmetry; apply Nat.ltb_ge; exact HN). eauto.
Qed.

Lemma np_cov_none N M : np_cov N M = None -> (N < 2)%nat.
Proof.
  unfold np_cov. destruct M; [discriminate|].
  destruct (N <? 2)%nat eqn:HN; [|discriminate]. intros _. apply Nat.ltb_lt. exact HN.
Qed.

Lemma np_cov_few N M : (N < 2)%nat -> M <> [] -> np_cov N M = None.
Proof.
  intros HN HM. unfold np_cov. destruct M; [contradiction|].
  replace (N <? 2)%nat with true by (symmetry; apply Nat.ltb_lt; exact HN). reflexivity.
Qed.

Lemma np_cov_square N M C : np_cov N M = Some C -> square (length M) C.
Proof.
  unfold np_cov. destruct M as [|v0 M0] eqn:EM.
  - intros H. inversion H. split; [reflexivity|constructor].
  - rewrite <- EM. clear EM v0 M0.
    destruct (N <? 2)%nat; [discriminate|]. intros H.
    injection H as H. subst C.
    unfold square. rewrite !length_map. split; [reflexivity|].
    rewrite Forall_map. apply Forall_forall. intros u _. rewrite !length_map.
    reflexivity.
Qed.

Lemma np_cov_psd N M C :
  Forall (fun v => length v = N) M -> np_cov N M = Some C -> psd C.
Proof.
  intros Hrect. unfold np_cov. destruct M as [|v0 M0] eqn:EM.
  { intros H. inversion H. intros x _. simpl. rewrite dot_nil_r. lra. }
  rewrite <- EM in *. clear EM v0 M0.
  destruct (N <? 2)%nat eqn:HN; [discriminate|]. apply Nat.ltb_ge in HN.
  intros H. injection H as H. subst C. intros x _.
  set (k := INR N - 1).
  set (cs := map (fun v => map (fun x => x - sum_list v / INR N) v) M).
  assert (Hcs : Forall (fun v => length v = N) cs).
  { unfold cs. rewrite Forall_map. eapply Forall_impl; [|exact Hrect].
    intros v Hv. simpl. rewrite length_map. exact Hv. }
  assert (Hk : 0 < k).
  { unfold k. apply le_INR in HN. simpl in HN. lra. }
  unfold mat_vec. rewrite map_map.
  rewrite (map_ext _ (fun u => dot u (lincomb N cs x) / k))
    by (intros u; apply cov_row_dot; exact Hcs).
  rewrite (cov_col_dot N) by exact Hcs.
  apply Rmult_le_pos; [apply dot_self_nonneg|].
  left. apply Rinv_0_lt_compat. exact Hk.
Qed.

Lemma transpose_rect A :
  Forall (fun v => length v = length A) (transpose A).
Proof.
  unfold transpose. rewrite Forall_map. apply Forall_forall. intros j _.
  unfold column. apply length_map.
Qed.

Lemma ncols_transpose A : (1 <= ncols A)%nat -> ncols (transpose A) = length A.
Proof.
  intros H. unfold transpose. destruct (ncols A) as [|d]; [lia|].
  simpl. unfold column. apply length_map.
Qed.

Lemma dict_get_single {V} lam (w : V) : dict_get lam [(lam, w)] = Some w.
Proof. simpl. rewrite label_eqb_refl. reflexivity. Qed.

Section SweepReturns.

Variable G : Generator.
Variable pls_fit_transform : matrix -> vector -> Z -> result matrix.
Variable factor_names : list string.
Variable cfg : ExperimentConfig.

Local Abbreviation day_ret := (day_return G pls_fit_transform factor_names cfg false).
Local Abbreviation cell_rets := (cell_returns G pls_fit_transform factor_names cfg false).
Local Abbreviation sweep := (run_sharpe_sweep G pls_fit_transform factor_names cfg false).

(** Without PLS, with a feature count of at least one, a positive penalty
    and at least two assets, the day is evaluated without an exception and
    its return is a number. *)
Lemma day_return_returns n lam day_df :
  (1 <= n)%Z -> 0 < lam -> (2 <= length day_df)%nat ->
  exists r, day_ret n lam day_df = Ok (Some r).
Proof.
  intros Hn Hlam Hassets. rewrite day_return_factor.
  destruct (draw_projection_ok G (random_seed cfg) (length factor_names) n)
    as (omega & gamma & Hd & _ & _); [lia|].
  rewrite Hd. cbn [bind]. unfold day_return_with.
  rewrite apply_projection_rows by exact Hn. cbn [bind].
  set (feats := map (feature_row (Z.to_nat n) omega gamma (sqrt (2 / IZR n)))
                    (to_numpy (map dr_exposure day_df) factor_names)).
  assert (Hlen : length feats = length day_df).
  { unfold feats, to_numpy. rewrite !length_map. reflexivity. }
  assert (Hcols : (2 <= ncols feats)%nat).
  { destruct day_df as [|d0 day_df]; [simpl in Hassets; lia|].
    unfold feats. simpl.
    destruct (feature_row_spec (Z.to_nat n) omega gamma (sqrt (2 / IZR n))
                (map (dr_exposure d0) factor_names) (sqrt_pos _)) as (Hl & _).
    rewrite Hl. lia. }
  set (Xt := transpose feats).
  set (F := mat_vec Xt (map dr_past_ret_ave day_df)).
  destruct (np_cov_some (length feats) Xt) as [C HC].
  { unfold vector in *. rewrite Hlen. exact Hassets. }
  destruct (ridge_weights_exist F C lam) as [w Hw].
  - unfold F. rewrite mat_vec_length. eapply np_cov_square. exact HC.
  - eapply np_cov_psd; [|exact HC]. apply transpose_rect.
  - exact Hlam.
  - unfold expected_return_and_cov. fold Xt. fold F.
    change (np_cov (length feats) Xt) with (np_cov (@length (list R) feats) Xt) in HC.
    unfold vector in *. rewrite HC, Hw. cbn [bind].
    rewrite dict_get_single. cbn [bind]. eauto.
Qed.

(** With a single asset the covariance is [NaN], and so is the day's
    return. *)
Lemma single_asset_day_is_nan n lam d :
  (1 <= n)%Z -> day_ret n lam [d] = Ok None.
Proof.
  intros Hn. rewrite day_return_factor.
  destruct (draw_projection_ok G (random_seed cfg) (length factor_names) n)
    as (omega & gamma & Hd & _ & _); [lia|].
  rewrite Hd. cbn [bind]. unfold day_return_with.
  rewrite apply_projection_rows by exact Hn. cbn [bind].
  unfold expected_return_and_cov.
  rewrite np_cov_few; [reflexivity|simpl; lia|].
  cbn [map to_numpy]. unfold transpose. cbn [ncols].
  destruct (feature_row_spec (Z.to_nat n) omega gamma (sqrt (2 / IZR n))
              (map (dr_exposure d) factor_names) (sqrt_pos _)) as (Hl & _).
  unfold to_numpy. cbn [map]. cbn [ncols]. rewrite Hl.
  destruct (Z.to_nat n) as [|m] eqn:Hm; [lia|].
  replace (2 * S m)%nat with (S (S (2 * m))) by lia. discriminate.
Qed.

Lemma cell_returns_returns df days n lam :
  (1 <= n)%Z -> 0 < lam ->
  (forall day, In day days -> (2 <= length (day_slice df day))%nat) ->
  exists rs, cell_rets df days n lam = Ok (map Some rs).
Proof.
  intros Hn Hlam Hdays. unfold cell_returns. apply for_collect_returns_map.
  intros day Hday. apply day_return_returns; auto.
Qed.

(** The sweep returns a result whenever PLS is off, every feature count is at
    least one, every penalty is positive and every trading day has at least
    two assets. *)
Lemma sweep_returns panel :
  (forall n, In n (n_factors_range cfg) -> (1 <= n)%Z) ->
  (forall lam, In lam (lambdas cfg) -> 0 < lam) ->
  (forall day, In day (trading_days_of panel) ->
     (2 <= length (day_slice (prepared panel) day))%nat) ->
  exists res, sweep panel = Ok res.
Proof.
  intros Hns Hlams Hdays. rewrite run_sharpe_sweep_loops.
  match goal with
  | |- exists res, bind (for_each ?body ?l ?s0) _ = _ =>
      assert (Hall : forall a s, In a l -> exists s', body a s = Ok s');
      [|destruct (for_each_returns body l Hall s0) as [[[m sd] sh] Hloop]]
  end.
  - intros n st Hn. apply for_each_returns. intros lam [[m sd] sh] Hl.
    unfold sweep_cell.
    destruct (cell_returns_returns (prepared panel) (trading_days_of panel) n lam)
      as [rs Hrs]; auto.
    rewrite Hrs. simpl. eauto.
  - rewrite Hloop. simpl. eauto.
Qed.

End SweepReturns.

(** ** The worked inputs *)

Lemma demo_panel_days : trading_days_of demo_panel = [6; 7]%Z.
Proof. vm_compute. reflexivity. Qed.

Lemma demo_panel_assets :
  forallb (fun d => (2 <=? length (day_slice (prepared demo_panel) d))%nat)
          (trading_days_of demo_panel) = true.
Proof. vm_compute. reflexivity. Qed.



Lemma day_sizes_from_check panel :
  forallb (fun d => (2 <=? length (day_slice (prepared panel) d))%nat)
          (trading_days_of panel) = true ->
  forall day, In day (trading_days_of panel) ->
    (2 <= length (day_slice (prepared panel) day))%nat.
Proof.
  intros H day Hd. rewrite forallb_forall in H. apply Nat.leb_le. apply H, Hd.
Qed.

Lemma demo_cfg_grid :
  (forall n, In n (n_factors_range demo_cfg) -> (1 <= n)%Z) /\
  (forall lam, In lam (lambdas demo_cfg) -> 0 < lam).
Proof.
  split.
  - intros n [<-|[<-|[]]]; lia.
  - intros lam [<-|[<-|[]]]; lra.
Qed.

Lemma demo_sweep_returns :
  exists res,
    run_sharpe_sweep toy_generator pls_unused demo_factor_names demo_cfg false
                     demo_panel = Ok res.
Proof.
  apply sweep_returns; try apply demo_cfg_grid.
  apply day_sizes_from_check, demo_panel_assets.
Qed.


Lemma cells_share_trading_days_witness :
  exists res,
    run_sharpe_sweep toy_generator pls_unused demo_factor_names demo_cfg false
                     demo_panel = Ok res /\
    exists rs,
      Forall2 (fun day r =>
                 day_return toy_generator pls_unused demo_factor_names demo_cfg false
                            2 1 (day_slice (prepared demo_panel) day) = Ok r)
              [6; 7]%Z rs /\
      length rs = 2%nat /\
      loc (mean res) 2 1 = Some (np_mean rs).
Proof.
  destruct demo_sweep_returns as [res Hres]. exists res. split; [exact Hres|].
  destruct (cells_share_trading_days toy_generator pls_unused demo_factor_names
              demo_cfg false demo_panel res 2%Z 1 Hres)
    as (rs & Hall & Hlen & Hm & _).
  - simpl. auto.
  - simpl. auto.
  - rewrite demo_panel_days in Hall, Hlen. exists rs. auto.
Defined.


Lemma std_entry_is_population_std_witness :
  exists res,
    run_sharpe_sweep toy_generator pls_unused demo_factor_names demo_cfg false
                     demo_panel = Ok res /\
    exists rs,
      cell_returns toy_generator pls_unused demo_factor_names demo_cfg false
                   (prepared demo_panel) (trading_days_of demo_panel) 1 (1 / 10)
        = Ok rs /\
      length rs = 2%nat /\
      loc (std res) 1 (1 / 10) = Some (population_std rs).
Proof.
  destruct demo_sweep_returns as [res Hres]. exists res. split; [exact Hres|].
  destruct (std_entry_is_population_std toy_generator pls_unused demo_factor_names
              demo_cfg false demo_panel res 1%Z (1 / 10) Hres)
    as (rs & Hc & Hlen & Hs).
  - simpl. auto.
  - simpl. auto.
  - rewrite demo_panel_days in Hlen. exists rs. auto.
Defined.

Lemma rff_features_layout_witness :
  (1 <= 2)%Z /\
  exists feats,
    rff_features toy_generator (map exposure demo_panel) demo_factor_names 2
                 {| rff_random_seed := 42 |} = Ok feats /\
    length feats = 14%nat.
Proof.
  split; [lia|].
  destruct (rff_features_layout toy_generator (map exposure demo_panel)
              demo_factor_names 2 {| rff_random_seed := 42 |})
    as (omega & gamma & feats & _ & _ & _ & Hf & Hlen & _); [lia|].
  exists feats. split; [exact Hf|]. rewrite Hlen. reflexivity.
Defined.

(** ** Exceptions are not caught *)

Section SweepRaises.

Variable G : Generator.
Variable pls_fit_transform : matrix -> vector -> Z -> result matrix.
Variable factor_names : list string.
Variable cfg : ExperimentConfig.
Variable use_pls : bool.

Local Abbreviation day_ret := (day_return G pls_fit_transform factor_names cfg use_pls).
Local Abbreviation cell_rets := (cell_returns G pls_fit_transform factor_names cfg use_pls).
Local Abbreviation sweep := (run_sharpe_sweep G pls_fit_transform factor_names cfg use_pls).

(** An exception raised while a day is evaluated leaves the sweep. *)
Lemma sweep_raises panel n lam day e :
  In n (n_factors_range cfg) -> In lam (lambdas cfg) ->
  In day (trading_days_of panel) ->
  day_ret n lam (day_slice (prepared panel) day) = Raise e ->
  exists e', sweep panel = Raise e'.
Proof.
  intros Hn Hl Hd Hday. rewrite run_sharpe_sweep_loops.
  match goal with
  | |- exists e', bind (for_each ?body ?l ?s0) _ = _ =>
      destruct (for_each_raises body l n Hn) with (s := s0) as [e' He']
  end.
  - intros st. apply (for_each_raises _ _ lam Hl). intros [[m sd] sh].
    unfold sweep_cell.
    destruct (for_collect_raises
                (fun day => day_ret n lam (day_slice (prepared panel) day))
                (trading_days_of panel) day e Hd Hday) as [e1 He1].
    unfold cell_returns. rewrite He1. simpl. eauto.
  - rewrite He'. simpl. eauto.
Qed.




End SweepRaises.

(** ** The grid with a zero penalty on the worked panel *)








(** ** Configurations the sweep does not reject *)

Lemma for_each_no_inner {A B S} (body : A -> B -> S -> result S) (l : list A) :
  forall s, for_each (fun a st => for_each (body a) [] st) l s = Ok s.
Proof. induction l as [|a l IH]; intros s; simpl; auto. Qed.

Lemma rff_features_bad_count G X names n rcfg :
  (n <= 0)%Z ->
  rff_features G X names n rcfg =
  Raise (if (n <? 0)%Z then ValueError else ZeroDivisionError).
Proof.
  intros Hn. unfold rff_features, rng_normal.
  destruct (n <? 0)%Z eqn:Hneg; [reflexivity|].
  apply Z.ltb_ge in Hneg. assert (n = 0%Z) by lia. subst n.
  cbn [bind].
  destruct (draw_rows G _ _ _) as [omega rng1].
  destruct (rng_choice G rng1 gamma_candidates) as [gamma g2]. reflexivity.
Qed.

Section SweepConfig.

Variable G : Generator.
Variable pls_fit_transform : matrix -> vector -> Z -> result matrix.
Variable factor_names : list string.
Variable cfg : ExperimentConfig.
Variable use_pls : bool.

Local Abbreviation day_ret := (day_return G pls_fit_transform factor_names cfg use_pls).
Local Abbreviation sweep := (run_sharpe_sweep G pls_fit_transform factor_names cfg use_pls).

Lemma sweep_empty_range panel :
  n_factors_range cfg = [] ->
  sweep panel = Ok {| sharpe := new_frame [] (lambdas cfg);
                      mean := new_frame [] (lambdas cfg);
                      std := new_frame [] (lambdas cfg) |}.
Proof. intros H. rewrite run_sharpe_sweep_loops, H. reflexivity. Qed.

Lemma sweep_empty_lambdas panel :
  lambdas cfg = [] ->
  sweep panel = Ok {| sharpe := new_frame (n_factors_range cfg) [];
                      mean := new_frame (n_factors_range cfg) [];
                      std := new_frame (n_factors_range cfg) [] |}.
Proof.
  intros H. rewrite run_sharpe_sweep_loops, H.
  rewrite (for_each_no_inner
             (fun n lam st =>
                sweep_cell G pls_fit_transform factor_names cfg use_pls
                           (prepared panel) (trading_days_of panel) n lam st)).
  reflexivity.
Qed.

Lemma day_return_bad_count n lam day_df :
  (n <= 0)%Z ->
  day_ret n lam day_df = Raise (if (n <? 0)%Z then ValueError else ZeroDivisionError).
Proof.
  intros Hn. unfold day_return. rewrite rff_features_bad_count by exact Hn.
  reflexivity.
Qed.

(** C3 (as the code has it).  The sweep validates nothing before its loops.
    With an empty list of feature counts, or an empty list of lambdas, it
    returns tables without rows, or without columns.  A feature count that
    is not positive makes the mapper raise ([ValueError] when negative,
    [ZeroDivisionError] when zero) at the first day evaluated for it, so the
    sweep raises only if there is a lambda and a trading day.  The PLS component
    count is handed to the reducer day by day; what the reducer raises there
    leaves the sweep. *)
Theorem configuration_is_not_validated panel :
  (n_factors_range cfg = [] ->
   sweep panel = Ok {| sharpe := new_frame [] (lambdas cfg);
                       mean := new_frame [] (lambdas cfg);
                       std := new_frame [] (lambdas cfg) |}) /\
  (lambdas cfg = [] ->
   sweep panel = Ok {| sharpe := new_frame (n_factors_range cfg) [];
                       mean := new_frame (n_factors_range cfg) [];
                       std := new_frame (n_factors_range cfg) [] |}) /\
  (forall n lam day_df, (n <= 0)%Z ->
     day_ret n lam day_df =
     Raise (if (n <? 0)%Z then ValueError else ZeroDivisionError)) /\
  (forall n, In n (n_factors_range cfg) -> (n <= 0)%Z ->
     lambdas cfg <> [] -> trading_days_of panel <> [] ->
     exists e, sweep panel = Raise e) /\
  (forall n lam day feats0 e,
     use_pls = true ->
     In n (n_factors_range cfg) -> In lam (lambdas cfg) ->
     In day (trading_days_of panel) ->
     rff_features G (map dr_exposure (day_slice (prepared panel) day)) factor_names n
                  {| rff_random_seed := random_seed cfg |} = Ok feats0 ->
     pls_fit_transform feats0 (map dr_past_ret_ave (day_slice (prepared panel) day))
                       (n_pls_components cfg) = Raise e ->
     exists e', sweep panel = Raise e').
Proof.
  split; [apply sweep_empty_range|]. split; [apply sweep_empty_lambdas|].
  split; [apply day_return_bad_count|]. split.
  - intros n Hn Hle Hl Hd.
    destruct (lambdas cfg) as [|lam lams] eqn:El; [contradiction|].
    destruct (trading_days_of panel) as [|day days] eqn:Ed; [contradiction|].
    apply (sweep_raises G pls_fit_transform factor_names cfg use_pls panel n lam day
             (if (n <? 0)%Z then ValueError else ZeroDivisionError)).
    + exact Hn.
    + rewrite El. left. reflexivity.
    + rewrite Ed. left. reflexivity.
    + apply day_return_bad_count. exact Hle.
  - intros n lam day feats0 e Hpls Hn Hl Hd Hf Hp.
    apply (sweep_raises G pls_fit_transform factor_names cfg use_pls panel n lam day e);
      try assumption.
    unfold day_return. rewrite Hf. cbn [bind]. rewrite Hpls.
    unfold pls_reduce. rewrite Hp. reflexivity.
Qed.

End SweepConfig.

Lemma empty_grid_is_not_rejected :
  n_factors_range empty_grid_cfg = [] /\
  run_sharpe_sweep toy_generator pls_unused demo_factor_names empty_grid_cfg false
                   demo_panel
  = Ok {| sharpe := new_frame [] [1 / 10; 1];
          mean := new_frame [] [1 / 10; 1];
          std := new_frame [] [1 / 10; 1] |} /\
  ~ exists e,
      run_sharpe_sweep toy_generator pls_unused demo_factor_names empty_grid_cfg false
                       demo_panel = Raise e.
Proof.
  split; [reflexivity|].
  assert (H := sweep_empty_range toy_generator pls_unused demo_factor_names
                 empty_grid_cfg false demo_panel eq_refl).
  split; [exact H|]. intros [e He]. rewrite H in He. discriminate.
Qed.

Lemma configuration_is_not_validated_witness :
  In 0%Z (n_factors_range zero_count_cfg) /\
  lambdas zero_count_cfg <> [] /\
  trading_days_of demo_panel <> [] /\
  exists e,
    run_sharpe_sweep toy_generator pls_unused demo_factor_names zero_count_cfg false
                     demo_panel = Raise e.
Proof.
  assert (Hn : In 0%Z (n_factors_range zero_count_cfg)) by (simpl; auto).
  assert (Hl : lambdas zero_count_cfg <> []) by discriminate.
  assert (Hd : trading_days_of demo_panel <> [])
    by (rewrite demo_panel_days; discriminate).
  split; [exact Hn|]. split; [exact Hl|]. split; [exact Hd|].
  apply (proj1 (proj2 (proj2 (proj2
           (configuration_is_not_validated toy_generator pls_unused demo_factor_names
              zero_count_cfg false demo_panel)))) 0%Z Hn); [lia|exact Hl|exact Hd].
Defined.

(** ** Which rows and which days are evaluated *)

Lemma existsb_Zeqb x seen : existsb (Z.eqb x) seen = true <-> In x seen.
Proof.
  rewrite existsb_exists. split.
  - intros (y & Hy & Heq). apply Z.eqb_eq in Heq. subst. exact Hy.
  - intros H. exists x. split; [exact H|apply Z.eqb_refl].
Qed.

Lemma in_unique_from x : forall l seen,
  In x (unique_from seen l) <-> In x l /\ ~ In x seen.
Proof.
  induction l as [|y l IH]; intros seen; simpl; [tauto|].
  destruct (existsb (Z.eqb y) seen) eqn:Hs.
  - apply existsb_Zeqb in Hs. rewrite IH. split.
    + intros [H1 H2]. auto.
    + intros [[->|H1] H2]; [contradiction|auto].
  - assert (Hy : ~ In y seen).
    { intros H. apply existsb_Zeqb in H. congruence. }
    simpl. rewrite IH. simpl. split.
    + intros [->|[H1 H2]]; [auto|]. split; [auto|]. intros H. apply H2. auto.
    + intros [[->|H1] H2]; [auto|].
      destruct (Z.eq_dec y x) as [->|Hne]; [auto|]. right. split; [exact H1|].
      intros [H|H]; [contradiction|contradiction].
Qed.

Lemma in_unique x l : In x (unique l) <-> In x l.
Proof. unfold unique. rewrite in_unique_from. simpl. tauto. Qed.

Lemma in_dropna d l :
  In d (dropna l) <->
  exists r, In (r, Some (dr_past_ret_ave d)) l /\ ret r = Some (dr_ret d) /\
            dr_day d = TradingDay r /\ dr_code d = SecuCode r /\
            dr_exposure d = exposure r.
Proof.
  unfold dropna. rewrite in_flat_map. split.
  - intros ([r p] & Hin & Hd). destruct p as [avg|]; [|contradiction].
    destruct (ret r) as [x|] eqn:Hr; [|contradiction].
    destruct Hd as [<-|[]]. simpl. exists r. auto.
  - intros (r & Hin & Hr & Hday & Hcode & Hexp).
    exists (r, Some (dr_past_ret_ave d)). split; [exact Hin|].
    rewrite Hr. left. destruct d; simpl in *. congruence.
Qed.

Lemma day_slice_dropna day l :
  day_slice (dropna l) day =
  dropna (filter (fun p => (TradingDay (fst p) =? day)%Z) l).
Proof.
  unfold day_slice. induction l as [|[r p] l IH]; simpl; [reflexivity|].
  unfold dropna in *. simpl. rewrite filter_app, IH.
  destruct (TradingDay r =? day)%Z eqn:Hd; simpl.
  - destruct p as [avg|]; [|reflexivity].
    destruct (ret r) as [x|]; [|reflexivity]. simpl. rewrite Hd. reflexivity.
  - destruct p as [avg|]; [|reflexivity].
    destruct (ret r) as [x|]; [|reflexivity]. simpl. rewrite Hd. reflexivity.
Qed.

(** C2 (as the code has it).  The filter drops rows, not days: a row of the
    sorted frame is kept exactly when both its proxy and its return are
    present; a trading day is evaluated exactly when at least one of its rows
    is kept, and its slice is made of all its kept rows, however few. *)
Theorem missing_values_drop_rows panel day :
  (forall d, In d (prepared panel) <->
     exists r, In (r, Some (dr_past_ret_ave d)) (with_proxy panel) /\
               ret r = Some (dr_ret d) /\ dr_day d = TradingDay r /\
               dr_code d = SecuCode r /\ dr_exposure d = exposure r) /\
  (In day (trading_days_of panel) <->
     exists r avg x, In (r, Some avg) (with_proxy panel) /\ ret r = Some x /\
                     TradingDay r = day) /\
  day_slice (prepared panel) day =
    dropna (filter (fun p => (TradingDay (fst p) =? day)%Z) (with_proxy panel)).
Proof.
  split; [intros d; apply in_dropna|]. split; [|apply day_slice_dropna].
  unfold trading_days_of. rewrite in_unique, in_map_iff. split.
  - intros (d & Hday & Hd). apply in_dropna in Hd.
    destruct Hd as (r & Hin & Hr & Hdr & _).
    exists r, (dr_past_ret_ave d), (dr_ret d). repeat split; auto. congruence.
  - intros (r & avg & x & Hin & Hr & Hday).
    exists {| dr_day := TradingDay r; dr_code := SecuCode r; dr_ret := x;
              dr_past_ret_ave := avg; dr_exposure := exposure r |}.
    split; [exact Hday|]. apply in_dropna. exists r. simpl. auto.
Qed.

(** On the day asset 000002 has no proxy, asset 000001 is evaluated alone
    and the day's return is [NaN]. *)
Lemma late_listing_day_is_nan :
  day_return toy_generator pls_unused demo_factor_names demo_cfg false 1 (1 / 10)
             (day_slice (prepared late_listing_panel) 6) = Ok None.
Proof.
  assert (Hlen : length (day_slice (prepared late_listing_panel) 6) = 1%nat)
    by (vm_compute; reflexivity).
  destruct (day_slice (prepared late_listing_panel) 6) as [|d [|d' l]];
    try discriminate.
  apply single_asset_day_is_nan. lia.
Qed.

Lemma partial_day_is_evaluated :
  existsb (fun p => (TradingDay (fst p) =? 6)%Z &&
                    String.eqb (SecuCode (fst p)) "000002" &&
                    match snd p with None => true | Some _ => false end)
          (with_proxy late_listing_panel) = true /\
  In 6%Z (trading_days_of late_listing_panel) /\
  map dr_code (day_slice (prepared late_listing_panel) 6) = ["000001"%string] /\
  (length (day_slice (prepared late_listing_panel) 6) < 2)%nat.
Proof.
  split; [vm_compute; reflexivity|].
  split; [vm_compute; auto|].
  split; [vm_compute; reflexivity|].
  vm_compute. lia.
Qed.

(** ** The rolling proxy *)

Lemma present_length_le w : (length (present w) <= length w)%nat.
Proof.
  induction w as [|[v|] w IH]; simpl; lia.
Qed.

Lemma all_present_some : forall w vs,
  all_present w = Some vs -> present w = vs /\ length vs = length w.
Proof.
  induction w as [|[v|] w IH]; simpl; intros vs H.
  - inversion H. auto.
  - destruct (all_present w) as [vs'|]; simpl in H; [|discriminate].
    inversion H; subst. destruct (IH vs' eq_refl) as [H1 H2].
    simpl. split; congruence.
  - discriminate.
Qed.

Lemma all_present_none : forall w,
  all_present w = None -> (length (present w) < length w)%nat.
Proof.
  induction w as [|[v|] w IH]; simpl; intros H.
  - discriminate.
  - destruct (all_present w) as [vs'|]; simpl in H; [discriminate|].
    specialize (IH eq_refl). lia.
  - pose proof (present_length_le w). lia.
Qed.

Lemma nth_error_map_seq {A} (g : nat -> A) n i :
  (i < n)%nat -> nth_error (map g (seq 0 n)) i = Some (g i).
Proof.
  intros Hi. apply map_nth_error.
  rewrite (nth_error_nth' _ 0%nat) by (rewrite length_seq; exact Hi).
  rewrite seq_nth by exact Hi. reflexivity.
Qed.

Lemma rolling_mean_length w m xs : length (rolling_mean w m xs) = length xs.
Proof. unfold rolling_mean. rewrite length_map, length_seq. reflexivity. Qed.

(** The shifted rolling mean at position [k] of a history is the trailing
    mean of the five observations before [k]. *)
Lemma shifted_rolling_mean history k :
  (k < length history)%nat ->
  nth k (shift 1 (rolling_mean 5 5 history)) None = trailing_mean 5 history k.
Proof.
  intros Hk. unfold shift. rewrite nth_firstn, rolling_mean_length.
  replace (k <? length history)%nat with true by (symmetry; apply Nat.ltb_lt; exact Hk).
  destruct k as [|k]; [reflexivity|].
  change (repeat None 1 ++ rolling_mean 5 5 history)
    with (@None R :: rolling_mean 5 5 history).
  cbn [nth].
  assert (Hk' : (k < length history)%nat) by lia.
  unfold rolling_mean.
  erewrite nth_error_nth by (apply nth_error_map_seq; exact Hk').
  unfold trailing_mean, window_at.
  replace (Nat.max 1 5) with 5%nat by reflexivity.
  destruct (S k <? 5)%nat eqn:Hlt.
  - apply Nat.ltb_lt in Hlt.
    replace (S k - 5)%nat with 0%nat by lia. cbn [skipn].
    pose proof (present_length_le (firstn (S k) history)) as Hp.
    rewrite length_firstn in Hp.
    replace (5 <=? length (present (firstn (S k) history)))%nat with false
      by (symmetry; apply Nat.leb_gt; lia).
    reflexivity.
  - apply Nat.ltb_ge in Hlt.
    replace (skipn (S k - 5) (firstn (S k) history))
      with (firstn 5 (skipn (S k - 5) history)).
    2:{ rewrite firstn_skipn_comm. f_equal. f_equal. lia. }
    set (w := firstn 5 (skipn (S k - 5) history)).
    assert (Hw : length w = 5%nat).
    { unfold w. rewrite length_firstn, length_skipn. lia. }
    destruct (all_present w) as [vs|] eqn:Hall.
    + destruct (all_present_some _ _ Hall) as [Hpres Hlen].
      rewrite Hpres, Hlen, Hw. reflexivity.
    + apply all_present_none in Hall.
      replace (5 <=? length (present w))%nat with false
        by (symmetry; apply Nat.leb_gt; lia).
      reflexivity.
Qed.

Lemma nth_error_combine_seq {A} : forall (l : list A) s i x,
  nth_error l i = Some x ->
  nth_error (combine (seq s (length l)) l) i = Some ((s + i)%nat, x).
Proof.
  induction l as [|y l IH]; intros s [|i] x H; simpl in *; try discriminate.
  - inversion H. rewrite Nat.add_0_r. reflexivity.
  - rewrite (IH (S s) i x H). f_equal. f_equal. lia.
Qed.

(** The place of a row within the series of its group. *)
Lemma group_position (p : Row -> bool) : forall df i r,
  nth_error df i = Some r -> p r = true ->
  nth_error (filter p df) (length (filter p (firstn i df))) = Some r.
Proof.
  intros df i r Hi Hp.
  destruct (nth_error_split _ _ Hi) as (l1 & l2 & -> & Hl1).
  subst i. rewrite firstn_app, Nat.sub_diag, firstn_all. simpl.
  rewrite app_nil_r, filter_app. simpl. rewrite Hp.
  rewrite nth_error_app2 by lia. rewrite Nat.sub_diag. reflexivity.
Qed.

Lemma group_earlier (p : Row -> bool) : forall df i j r',
  (j < length (filter p (firstn i df)))%nat ->
  nth_error (filter p df) j = Some r' ->
  exists i', (i' < i)%nat /\ nth_error df i' = Some r' /\ p r' = true.
Proof.
  intros df i j r' Hj Hr'.
  rewrite <- (firstn_skipn i df) in Hr' at 1.
  rewrite filter_app, nth_error_app1 in Hr' by exact Hj.
  apply nth_error_In, filter_In in Hr'. destruct Hr' as [Hin Hp].
  apply In_nth_error in Hin. destruct Hin as [i' Hi'].
  rewrite nth_error_firstn in Hi'.
  destruct (i' <? i)%nat eqn:Hlt; [|discriminate].
  apply Nat.ltb_lt in Hlt. eauto.
Qed.

Lemma same_code_refl r : same_code (SecuCode r) r = true.
Proof. unfold same_code. apply String.eqb_refl. Qed.

Lemma compute_past_return_avg_at df i r :
  nth_error df i = Some r ->
  nth_error (_compute_past_return_avg df 5) i =
  Some (trailing_mean 5 (map ret (filter (same_code (SecuCode r)) df))
                      (length (filter (same_code (SecuCode r)) (firstn i df)))).
Proof.
  intros Hi. unfold _compute_past_return_avg, groupby_transform.
  rewrite (map_nth_error _ _ _ (nth_error_combine_seq df 0 i r Hi)).
  cbn [Nat.add]. f_equal. apply shifted_rolling_mean.
  rewrite length_map. apply nth_error_Some.
  rewrite (group_position _ df i r Hi (same_code_refl r)). discriminate.
Qed.

(** ** The sort *)

Lemma row_leb_total a b : row_leb a b = false -> row_leb b a = true.
Proof.
  unfold row_leb. intros H. apply orb_false_iff in H. destruct H as [H1 H2].
  apply Z.ltb_ge in H1. apply orb_true_iff.
  destruct (Z.eq_dec (TradingDay a) (TradingDay b)) as [Heq|Hne].
  - right. rewrite Heq, Z.eqb_refl in *. simpl in *.
    destruct (String.leb_total (SecuCode a) (SecuCode b)) as [H|H]; congruence.
  - left. apply Z.ltb_lt. lia.
Qed.

Lemma row_le_day a b : row_le a b -> day_le a b.
Proof.
  unfold row_le, day_le, row_leb. intros H. apply orb_true_iff in H.
  destruct H as [H|H].
  - apply Z.ltb_lt in H. lia.
  - apply andb_true_iff in H. destruct H as [H _]. apply Z.eqb_eq in H. lia.
Qed.

Lemma insert_row_hd x a l :
  row_le a x -> HdRel row_le a l -> HdRel row_le a (insert_row x l).
Proof.
  intros Hax Hal. destruct l as [|y l]; simpl; [constructor; exact Hax|].
  destruct (row_leb x y); constructor; [exact Hax|].
  inversion Hal; assumption.
Qed.

Lemma insert_row_sorted x : forall l, Sorted row_le l -> Sorted row_le (insert_row x l).
Proof.
  induction l as [|y l IH]; intros Hs; simpl.
  - repeat constructor.
  - apply Sorted_inv in Hs. destruct Hs as [Hs Hhd].
    destruct (row_leb x y) eqn:Hxy.
    + constructor; [constructor; assumption|]. constructor. exact Hxy.
    + constructor; [apply IH; exact Hs|].
      apply insert_row_hd; [apply row_leb_total; exact Hxy|exact Hhd].
Qed.

Lemma sort_values_sorted df : Sorted row_le (sort_values df).
Proof.
  induction df as [|x df IH]; simpl; [constructor|].
  apply insert_row_sorted. exact IH.
Qed.

Lemma insert_row_perm x : forall l, Permutation (insert_row x l) (x :: l).
Proof.
  induction l as [|y l IH]; simpl; [reflexivity|].
  destruct (row_leb x y); [reflexivity|].
  rewrite IH. apply perm_swap.
Qed.

Lemma sort_values_perm df : Permutation (sort_values df) df.
Proof.
  induction df as [|x df IH]; simpl; [constructor|].
  rewrite insert_row_perm. constructor. exact IH.
Qed.

Lemma sorted_by_day df : StronglySorted day_le (sort_values df).
Proof.
  apply Sorted_StronglySorted.
  - intros a b c Hab Hbc. unfold day_le in *. lia.
  - pose proof (sort_values_sorted df) as Hs.
    induction Hs as [|a l Hs IH Hhd]; constructor; [exact IH|].
    destruct Hhd; constructor. apply row_le_day. assumption.
Qed.

Lemma strongly_sorted_nth {A} (Rel : A -> A -> Prop) : forall l i j a b,
  StronglySorted Rel l -> (i < j)%nat ->
  nth_error l i = Some a -> nth_error l j = Some b -> Rel a b.
Proof.
  induction l as [|x l IH]; intros i j a b Hs Hij Ha Hb.
  - destruct i; discriminate.
  - apply StronglySorted_inv in Hs. destruct Hs as [Hs Hall].
    destruct j as [|j]; [lia|]. simpl in Hb.
    destruct i as [|i]; simpl in Ha.
    + inversion Ha; subst. rewrite Forall_forall in Hall.
      apply Hall. eapply nth_error_In. exact Hb.
    + apply (IH i j); auto. lia.
Qed.

(** In the sorted frame, with one row per (day, asset), an earlier row of
    the same asset is of an earlier day. *)
Lemma earlier_row_earlier_day panel i' i r' r :
  NoDup (map row_key panel) -> (i' < i)%nat ->
  nth_error (sort_values panel) i' = Some r' ->
  nth_error (sort_values panel) i = Some r ->
  SecuCode r' = SecuCode r ->
  (TradingDay r' < TradingDay r)%Z.
Proof.
  intros Hnd Hlt Hr' Hr Hcode.
  pose proof (strongly_sorted_nth day_le _ _ _ _ _ (sorted_by_day panel) Hlt Hr' Hr)
    as Hle.
  unfold day_le in Hle.
  destruct (Z.eq_dec (TradingDay r') (TradingDay r)) as [Heq|Hne]; [exfalso|lia].
  assert (Hnd' : NoDup (map row_key (sort_values panel))).
  { eapply Permutation_NoDup; [|exact Hnd].
    apply Permutation_map. symmetry. apply sort_values_perm. }
  rewrite NoDup_nth_error in Hnd'.
  assert (Hi' : (i' < length (map row_key (sort_values panel)))%nat).
  { rewrite length_map. apply nth_error_Some. rewrite Hr'. discriminate. }
  specialize (Hnd' i' i Hi').
  rewrite !nth_error_map, Hr', Hr in Hnd'. simpl in Hnd'.
  unfold row_key in Hnd'. rewrite Heq, Hcode in Hnd'.
  specialize (Hnd' eq_refl). lia.
Qed.

Lemma nth_error_combine {A B} : forall (l1 : list A) (l2 : list B) i a b,
  nth_error (combine l1 l2) i = Some (a, b) <->
  nth_error l1 i = Some a /\ nth_error l2 i = Some b.
Proof.
  induction l1 as [|x l1 IH]; intros [|y l2] [|i] a b; simpl;
    try (split; [discriminate|intros [? ?]; discriminate]).
  - split; [intros H; inversion H; auto|intros [H1 H2]; congruence].
  - apply IH.
Qed.

(** C6.  In the sorted frame, the proxy of a row is the mean of the five
    returns that precede the row in the history of its own asset, missing
    unless all five are there (a window and a minimum of five observations,
    shifted by one row); with one row per (day, asset) those returns are of
    days strictly before the row's day.  The history is that of the whole
    frame: the proxy is computed before any row is dropped and before the
    frame is sliced by day, and the rows that are evaluated carry it. *)
Theorem proxy_is_shifted_trailing_mean panel :
  NoDup (map row_key panel) ->
  (forall i r, nth_error (sort_values panel) i = Some r ->
     let history := filter (same_code (SecuCode r)) (sort_values panel) in
     let k := length (filter (same_code (SecuCode r)) (firstn i (sort_values panel))) in
     nth_error (with_proxy panel) i = Some (r, trailing_mean 5 (map ret history) k) /\
     nth_error history k = Some r /\
     Forall (fun r' => SecuCode r' = SecuCode r) history /\
     (forall j r', (j < k)%nat -> nth_error history j = Some r' ->
        (TradingDay r' < TradingDay r)%Z)) /\
  (forall d, In d (prepared panel) ->
     exists i r,
       nth_error (sort_values panel) i = Some r /\
       dr_day d = TradingDay r /\ dr_code d = SecuCode r /\ ret r = Some (dr_ret d) /\
       trailing_mean 5 (map ret (filter (same_code (SecuCode r)) (sort_values panel)))
                     (length (filter (same_code (SecuCode r))
                                     (firstn i (sort_values panel))))
       = Some (dr_past_ret_ave d)).
Proof.
  intros Hnd. split.
  - intros i r Hi history k. split; [|split; [|split]].
    + unfold with_proxy. apply nth_error_combine. split; [exact Hi|].
      apply compute_past_return_avg_at. exact Hi.
    + apply group_position; [exact Hi|apply same_code_refl].
    + apply Forall_forall. intros r' Hr'. apply filter_In in Hr'.
      destruct Hr' as [_ Hc]. unfold same_code in Hc. apply String.eqb_eq in Hc.
      exact Hc.
    + intros j r' Hj Hr'.
      destruct (group_earlier _ _ _ _ _ Hj Hr') as (i' & Hlt & Hi' & Hc).
      unfold same_code in Hc. apply String.eqb_eq in Hc.
      eapply earlier_row_earlier_day; eassumption.
  - intros d Hd. apply in_dropna in Hd.
    destruct Hd as (r & Hin & Hr & Hday & Hcode & _).
    apply In_nth_error in Hin. destruct Hin as [i Hi].
    unfold with_proxy in Hi. apply nth_error_combine in Hi. destruct Hi as [Hi Hp].
    rewrite (compute_past_return_avg_at _ _ _ Hi) in Hp. inversion Hp as [Hp'].
    exists i, r. repeat split; auto.
Qed.

Lemma late_listing_keys : NoDup (map row_key late_listing_panel).
Proof.
  repeat (constructor; [simpl; intuition discriminate|]). constructor.
Qed.

Lemma proxy_is_shifted_trailing_mean_witness :
  NoDup (map row_key late_listing_panel) /\
  nth_error (sort_values late_listing_panel) 7
    = Some (mk_row 6 "000001" (IZR 6 / 50)) /\
  nth_error (with_proxy late_listing_panel) 7
    = Some (mk_row 6 "000001" (IZR 6 / 50),
            trailing_mean 5
              (map ret (filter (same_code "000001") (sort_values late_listing_panel)))
              (length (filter (same_code "000001")
                              (firstn 7 (sort_values late_listing_panel))))).
Proof.
  assert (Hi : nth_error (sort_values late_listing_panel) 7
               = Some (mk_row 6 "000001" (IZR 6 / 50)))
    by (vm_compute; reflexivity).
  split; [exact late_listing_keys|]. split; [exact Hi|].
  exact (proj1 (proj1 (proxy_is_shifted_trailing_mean late_listing_panel
                         late_listing_keys) 7%nat _ Hi)).
Defined.

Lemma projection_fixed_per_feature_count_witness :
  [6; 7]%Z <> [] /\
  cell_returns toy_generator pls_unused demo_factor_names demo_cfg false
               (prepared demo_panel) [6; 7]%Z 2 1 =
  (p <- draw_projection toy_generator 42 2 2 ;;
   for_collect (fun day =>
                  day_return_with pls_unused demo_factor_names demo_cfg false p 2 1
                                  (day_slice (prepared demo_panel) day))
               [6; 7]%Z).
Proof.
  assert (Hd : [6; 7]%Z <> []) by discriminate.
  split; [exact Hd|].
  exact (proj2 (proj2 (proj2
           (projection_fixed_per_feature_count toy_generator pls_unused
              demo_factor_names demo_cfg false)))
           (prepared demo_panel) [6; 7]%Z 2%Z 1 Hd).
Defined.

Lemma missing_values_drop_rows_witness :
  day_slice (prepared late_listing_panel) 6 =
  dropna (filter (fun p => (TradingDay (fst p) =? 6)%Z) (with_proxy late_listing_panel)).
Proof.
  exact (proj2 (proj2 (missing_values_drop_rows late_listing_panel 6%Z))).
Defined.

(* ================================================================== *)
(** * Further properties *)
(* ================================================================== *)

(** ** The shape of the result tables *)

Lemma for_each_invariant {A S} (P : S -> Prop) (body : A -> S -> result S) (l : list A) :
  (forall a s s', In a l -> P s -> body a s = Ok s' -> P s') ->
  forall s s', P s -> for_each body l s = Ok s' -> P s'.
Proof.
  induction l as [|a l IH]; simpl; intros Hstep s s' Hs H.
  - inversion H; subst. exact Hs.
  - destruct (body a s) as [s1|e] eqn:Hb; simpl in H; [|discriminate].
    apply (IH (fun a0 t t' Hin => Hstep a0 t t' (or_intror Hin)) s1 s');
      [|exact H].
    apply (Hstep a s s1); auto.
Qed.

Lemma new_frame_table idx cols : table_of idx cols (new_frame idx cols).
Proof.
  unfold table_of, well_shaped, new_frame. simpl.
  split; [reflexivity|]. split; [reflexivity|]. split.
  - apply length_map.
  - rewrite Forall_map. apply Forall_forall. intros i _. apply length_map.
Qed.

Lemma loc_set_table idx cols t n lam v :
  table_of idx cols t -> table_of idx cols (loc_set t n lam v).
Proof.
  intros (Hi & Hc & Hl & Hr). unfold table_of, well_shaped, loc_set. simpl.
  split; [exact Hi|]. split; [exact Hc|]. split.
  - rewrite length_map, length_combine. lia.
  - rewrite Forall_map. apply Forall_forall. intros [i r] Hin.
    apply in_combine_r in Hin. rewrite Forall_forall in Hr.
    specialize (Hr r Hin). destruct (i =? n)%Z; [|exact Hr].
    rewrite length_map, length_combine. lia.
Qed.

Section SweepShape.

Variable G : Generator.
Variable pls_fit_transform : matrix -> vector -> Z -> result matrix.
Variable factor_names : list string.
Variable cfg : ExperimentConfig.
Variable use_pls : bool.

Local Abbreviation sweep := (run_sharpe_sweep G pls_fit_transform factor_names cfg use_pls).

(** X1.  When the sweep returns, each of its three tables is indexed by the
    configured feature counts, has the configured lambdas as columns, and
    holds exactly one cell per (feature count, lambda) position. *)
Theorem result_tables_have_grid_shape panel res :
  sweep panel = Ok res ->
  table_of (n_factors_range cfg) (lambdas cfg) (mean res) /\
  table_of (n_factors_range cfg) (lambdas cfg) (std res) /\
  table_of (n_factors_range cfg) (lambdas cfg) (sharpe res).
Proof.
  rewrite run_sharpe_sweep_loops. intros H.
  match type of H with
  | bind (for_each ?body ?l ?s0) _ = _ =>
      destruct (for_each body l s0) as [[[m s] sh]|e] eqn:Hloop
  end; simpl in H; [|discriminate].
  inversion H; subst res; clear H. simpl.
  set (P := fun st : frames =>
              let '(m, s, sh) := st in
              table_of (n_factors_range cfg) (lambdas cfg) m /\
              table_of (n_factors_range cfg) (lambdas cfg) s /\
              table_of (n_factors_range cfg) (lambdas cfg) sh).
  change (P (m, s, sh)).
  assert (Hcell : forall n lam st st',
            P st ->
            sweep_cell G pls_fit_transform factor_names cfg use_pls
                       (prepared panel) (trading_days_of panel) n lam st = Ok st' ->
            P st').
  { intros n lam [[m1 s1] sh1] st2 (H1 & H2 & H3) Hc.
    unfold sweep_cell in Hc.
    destruct (cell_returns _ _ _ _ _ _ _ _ _) as [rs|e]; simpl in Hc; [|discriminate].
    inversion Hc; subst st2. unfold P.
    split; [|split]; apply loc_set_table; assumption. }
  refine (for_each_invariant P _ _ _ _ _ _ Hloop).
  - intros n st st' _ Hst Hn.
    refine (for_each_invariant P _ _ _ _ _ Hst Hn).
    intros lam st1 st2 _ Hst1 Hc. exact (Hcell n lam st1 st2 Hst1 Hc).
  - unfold P. split; [|split]; apply new_frame_table.
Qed.

End SweepShape.

Lemma result_tables_have_grid_shape_witness :
  exists res,
    run_sharpe_sweep toy_generator pls_unused demo_factor_names demo_cfg false
                     demo_panel = Ok res /\
    table_of [1; 2]%Z [1 / 10; 1] (mean res).
Proof.
  destruct demo_sweep_returns as [res Hres]. exists res. split; [exact Hres|].
  exact (proj1 (result_tables_have_grid_shape toy_generator pls_unused
                  demo_factor_names demo_cfg false demo_panel res Hres)).
Defined.

(** ** Numbers and NaN in the result tables *)

Lemma all_present_map_Some vs : all_present (map Some vs) = Some vs.
Proof.
  induction vs as [|v vs IH]; simpl; [reflexivity|]. rewrite IH. reflexivity.
Qed.

Lemma all_present_inv : forall rs vs, all_present rs = Some vs -> rs = map Some vs.
Proof.
  induction rs as [|[v|] rs IH]; simpl; intros vs H.
  - inversion H. reflexivity.
  - destruct (all_present rs) as [vs'|]; simpl in H; [|discriminate].
    inversion H; subst. simpl. f_equal. apply IH. reflexivity.
  - discriminate.
Qed.

Lemma sum_squares_nonneg (m : R) vs :
  0 <= sum_list (map (fun x => (x - m) * (x - m)) vs).
Proof.
  unfold sum_list. induction vs as [|v vs IH]; simpl; [lra|].
  pose proof (Rle_0_sqr (v - m)) as Hsq. unfold Rsqr in Hsq. lra.
Qed.

Lemma sum_squares_zero (m : R) vs :
  sum_list (map (fun x => (x - m) * (x - m)) vs) = 0 -> Forall (eq m) vs.
Proof.
  unfold sum_list. induction vs as [|v vs IH]; simpl; intros H; [constructor|].
  pose proof (sum_squares_nonneg m vs) as Hs. unfold sum_list in Hs.
  pose proof (Rle_0_sqr (v - m)) as Hsq. unfold Rsqr in Hsq.
  assert (Hv : (v - m) * (v - m) = 0) by lra.
  constructor; [destruct (Rmult_integral _ _ Hv); lra|]. apply IH. lra.
Qed.

Lemma np_std_nonneg rs s : np_std rs 0 = Some s -> 0 <= s.
Proof.
  unfold np_std. destruct (all_present rs) as [vs|]; [|discriminate].
  destruct (np_mean rs) as [m|]; [|discriminate].
  destruct (length vs <=? 0)%nat; [discriminate|].
  intros H. inversion H. apply sqrt_pos.
Qed.

(** A zero standard deviation only comes from returns that are all equal. *)
Lemma np_std_zero_inv rs :
  np_std rs 0 = Some 0 -> exists c, rs <> [] /\ Forall (eq (Some c)) rs.
Proof.
  rewrite np_std_population. unfold population_std.
  destruct (all_present rs) as [[|v vs]|] eqn:Hall; try discriminate.
  intros H. injection H as Hs.
  set (N := INR (length (v :: vs))) in *.
  set (m := sum_list (v :: vs) / N) in *.
  assert (HN : 0 < N).
  { unfold N. apply lt_0_INR. simpl. lia. }
  pose proof (sum_squares_nonneg m (v :: vs)) as Hnn.
  apply sqrt_eq_0 in Hs.
  2:{ apply Rmult_le_pos; [exact Hnn|]. left. apply Rinv_0_lt_compat. exact HN. }
  assert (Hz : sum_list (map (fun x => (x - m) * (x - m)) (v :: vs)) = 0).
  { unfold Rdiv in Hs. apply Rmult_integral in Hs. destruct Hs as [Hs|Hs]; [exact Hs|].
    change (/ N = 0) in Hs. pose proof (Rinv_0_lt_compat N HN). lra. }
  apply sum_squares_zero in Hz.
  exists m. apply all_present_inv in Hall. subst rs. split; [discriminate|].
  rewrite Forall_map. eapply Forall_impl; [|exact Hz]. intros x Hx. congruence.
Qed.

Lemma sharpe_ratio_some mu sig q :
  sharpe_ratio mu sig = Some q <->
  exists m s, mu = Some m /\ sig = Some s /\ 0 < s /\ q = m / s.
Proof.
  unfold sharpe_ratio. split.
  - destruct sig as [s|]; [|discriminate].
    destruct (Rlt_dec 0 s) as [Hs|Hs]; [|discriminate].
    destruct mu as [m|]; [|discriminate].
    intros H. inversion H. exists m, s. auto.
  - intros (m & s & -> & -> & Hs & ->).
    destruct (Rlt_dec 0 s); [reflexivity|contradiction].
Qed.

Section SweepAggregates.

Variable G : Generator.
Variable pls_fit_transform : matrix -> vector -> Z -> result matrix.
Variable factor_names : list string.
Variable cfg : ExperimentConfig.
Variable use_pls : bool.

Local Abbreviation cell_rets := (cell_returns G pls_fit_transform factor_names cfg use_pls).
Local Abbreviation sweep := (run_sharpe_sweep G pls_fit_transform factor_names cfg use_pls).

(** X2.  In every cell of a returned sweep: a std entry that is a number is
    not negative; the Sharpe entry is a number exactly when the mean is a
    number and the std a positive number, and it is then their quotient; and
    a std entry of zero only arises when the daily returns of the cell are
    all equal. *)
Theorem aggregates_are_consistent panel res n lam :
  sweep panel = Ok res ->
  In n (n_factors_range cfg) -> In lam (lambdas cfg) ->
  (forall s, loc (std res) n lam = Some (Some s) -> 0 <= s) /\
  (forall q, loc (sharpe res) n lam = Some (Some q) <->
     exists m s, loc (mean res) n lam = Some (Some m) /\
                 loc (std res) n lam = Some (Some s) /\ 0 < s /\ q = m / s) /\
  (loc (std res) n lam = Some (Some 0) ->
   exists rs c,
     cell_rets (prepared panel) (trading_days_of panel) n lam = Ok rs /\
     rs <> [] /\ Forall (eq (Some c)) rs).
Proof.
  intros H Hn Hl.
  destruct (sweep_records G pls_fit_transform factor_names cfg use_pls
              panel res H n lam Hn Hl) as (rs & Hc & Hm & Hs & Hsh).
  split; [|split].
  - intros s Hstd. rewrite Hs in Hstd. inversion Hstd as [Hstd'].
    eapply np_std_nonneg. exact Hstd'.
  - intros q. rewrite Hsh, Hm, Hs. split.
    + intros Hq. inversion Hq as [Hq']. apply sharpe_ratio_some in Hq'.
      destruct Hq' as (m & s & Hmu & Hsig & Hpos & ->).
      exists m, s. rewrite Hmu, Hsig. auto.
    + intros (m & s & Hmu & Hsig & Hpos & ->).
      inversion Hmu as [Hmu']. inversion Hsig as [Hsig'].
      f_equal. apply sharpe_ratio_some. exists m, s. auto.
  - intros Hstd. rewrite Hs in Hstd. inversion Hstd as [Hstd'].
    destruct (np_std_zero_inv rs Hstd') as (c & Hne & Hall).
    exists rs, c. auto.
Qed.

End SweepAggregates.

Lemma aggregates_are_consistent_witness :
  exists res,
    run_sharpe_sweep toy_generator pls_unused demo_factor_names demo_cfg false
                     demo_panel = Ok res /\
    forall s, loc (std res) 1 1 = Some (Some s) -> 0 <= s.
Proof.
  destruct demo_sweep_returns as [res Hres]. exists res. split; [exact Hres|].
  apply (aggregates_are_consistent toy_generator pls_unused demo_factor_names
           demo_cfg false demo_panel res 1%Z 1 Hres); simpl; auto.
Defined.

Lemma np_mean_numbers v vs : exists m, np_mean (map Some (v :: vs)) = Some m.
Proof.
  unfold np_mean. rewrite all_present_map_Some. eauto.
Qed.

Lemma np_std_numbers v vs : exists s, np_std (map Some (v :: vs)) 0 = Some s.
Proof.
  rewrite np_std_population. unfold population_std.
  rewrite all_present_map_Some. eauto.
Qed.

Section SweepNumbers.

Variable G : Generator.
Variable pls_fit_transform : matrix -> vector -> Z -> result matrix.
Variable factor_names : list string.
Variable cfg : ExperimentConfig.

Local Abbreviation sweep := (run_sharpe_sweep G pls_fit_transform factor_names cfg false).

(** X3.  Without PLS, when every feature count is at least one, every
    lambda is positive and every trading day has at least two assets, the
    sweep raises nothing and returns its tables; if there is at least one
    trading day, every mean and every std entry of the grid is a number. *)
Theorem regular_sweep_returns_numbers panel :
  (forall n, In n (n_factors_range cfg) -> (1 <= n)%Z) ->
  (forall lam, In lam (lambdas cfg) -> 0 < lam) ->
  (forall day, In day (trading_days_of panel) ->
     (2 <= length (day_slice (prepared panel) day))%nat) ->
  exists res,
    sweep panel = Ok res /\
    (trading_days_of panel <> [] ->
     forall n lam, In n (n_factors_range cfg) -> In lam (lambdas cfg) ->
       exists m s, loc (mean res) n lam = Some (Some m) /\
                   loc (std res) n lam = Some (Some s)).
Proof.
  intros Hns Hlams Hdays.
  destruct (sweep_returns G pls_fit_transform factor_names cfg panel Hns Hlams Hdays)
    as [res Hres].
  exists res. split; [exact Hres|]. intros Hne n lam Hn Hl.
  destruct (sweep_records G pls_fit_transform factor_names cfg false
              panel res Hres n lam Hn Hl) as (rs & Hc & Hm & Hs & _).
  destruct (cell_returns_returns G pls_fit_transform factor_names cfg
              (prepared panel) (trading_days_of panel) n lam) as [vs Hvs]; auto.
  rewrite Hc in Hvs. injection Hvs as Hrs. subst rs.
  destruct vs as [|v vs].
  { apply for_collect_ok_inv, Forall2_length in Hc. simpl in Hc.
    destruct (trading_days_of panel); [contradiction|discriminate]. }
  destruct (np_mean_numbers v vs) as [m Hmean].
  destruct (np_std_numbers v vs) as [s Hstd].
  exists m, s. rewrite Hm, Hs, Hmean, Hstd. auto.
Qed.

End SweepNumbers.

Lemma regular_sweep_returns_numbers_witness :
  exists res,
    run_sharpe_sweep toy_generator pls_unused demo_factor_names demo_cfg false
                     demo_panel = Ok res /\
    exists m s, loc (mean res) 2 (1 / 10) = Some (Some m) /\
                loc (std res) 2 (1 / 10) = Some (Some s).
Proof.
  destruct (regular_sweep_returns_numbers toy_generator pls_unused demo_factor_names
              demo_cfg demo_panel (proj1 demo_cfg_grid) (proj2 demo_cfg_grid)
              (day_sizes_from_check demo_panel demo_panel_assets))
    as (res & Hres & Hnum).
  exists res. split; [exact Hres|].
  apply Hnum.
  - rewrite demo_panel_days. discriminate.
  - simpl. auto.
  - simpl. auto.
Defined.

(** ** Histories too short for a proxy *)

Lemma filter_perm_length {A} (f : A -> bool) (l l' : list A) :
  Permutation l l' -> length (filter f l) = length (filter f l').
Proof.
  induction 1 as [|x l l' _ IH|x y l|l l' l'' _ IH1 _ IH2]; simpl.
  - reflexivity.
  - destruct (f x); simpl; congruence.
  - destruct (f x), (f y); reflexivity.
  - congruence.
Qed.

Lemma short_histories_no_proxy panel :
  short_histories panel ->
  forall r p, In (r, p) (with_proxy panel) -> p = None.
Proof.
  intros Hshort r p Hin. apply In_nth_error in Hin. destruct Hin as [i Hi].
  unfold with_proxy in Hi. apply nth_error_combine in Hi. destruct Hi as [Hr Hp].
  rewrite (compute_past_return_avg_at _ _ _ Hr) in Hp. inversion Hp as [Hp']. clear Hp.
  unfold trailing_mean.
  set (k := length (filter (same_code (SecuCode r)) (firstn i (sort_values panel)))).
  assert (Hk : (k < length (filter (same_code (SecuCode r)) (sort_values panel)))%nat).
  { apply nth_error_Some.
    unfold k. rewrite (group_position _ _ _ _ Hr (same_code_refl r)). discriminate. }
  rewrite (filter_perm_length _ _ _ (sort_values_perm panel)) in Hk.
  assert (Hin : In r panel).
  { eapply Permutation_in; [apply sort_values_perm|]. eapply nth_error_In. exact Hr. }
  specialize (Hshort r Hin).
  replace (k <? 5)%nat with true by (symmetry; apply Nat.ltb_lt; lia).
  reflexivity.
Qed.

Lemma short_histories_no_day panel :
  short_histories panel -> trading_days_of panel = [].
Proof.
  intros Hshort. unfold trading_days_of.
  assert (Hp : prepared panel = []).
  { destruct (prepared panel) as [|d l] eqn:Hprep; [reflexivity|exfalso].
    assert (Hd : In d (prepared panel)) by (rewrite Hprep; left; reflexivity).
    apply in_dropna in Hd. destruct Hd as (r & Hin & _).
    apply (short_histories_no_proxy panel Hshort) in Hin. discriminate. }
  rewrite Hp. reflexivity.
Qed.

Section SweepWithoutDays.

Variable G : Generator.
Variable pls_fit_transform : matrix -> vector -> Z -> result matrix.
Variable factor_names : list string.
Variable cfg : ExperimentConfig.
Variable use_pls : bool.

Local Abbreviation sweep := (run_sharpe_sweep G pls_fit_transform factor_names cfg use_pls).

Lemma sweep_without_days panel :
  trading_days_of panel = [] ->
  exists res,
    sweep panel = Ok res /\
    forall n lam, In n (n_factors_range cfg) -> In lam (lambdas cfg) ->
      loc (mean res) n lam = Some None /\
      loc (std res) n lam = Some None /\
      loc (sharpe res) n lam = Some None.
Proof.
  intros Hd.
  assert (Hret : exists res, sweep panel = Ok res).
  { rewrite run_sharpe_sweep_loops, Hd.
    match goal with
    | |- exists res, bind (for_each ?body ?l ?s0) _ = _ =>
        assert (Hall : forall a s, In a l -> exists s', body a s = Ok s');
        [|destruct (for_each_returns body l Hall s0) as [[[m sd] sh] Hloop]]
    end.
    - intros n st _. apply for_each_returns. intros lam [[m sd] sh] _.
      unfold sweep_cell, cell_returns. simpl. eauto.
    - rewrite Hloop. simpl. eauto. }
  destruct Hret as [res Hres]. exists res. split; [exact Hres|].
  intros n lam Hn Hl.
  destruct (sweep_records G pls_fit_transform factor_names cfg use_pls
              panel res Hres n lam Hn Hl) as (rs & Hc & Hm & Hs & Hsh).
  rewrite Hd in Hc. unfold cell_returns in Hc. simpl in Hc.
  inversion Hc; subst rs. auto.
Qed.

(** X4.  When no asset has more than five rows, no row has a proxy and
    there is no trading day; and whenever there is no trading day the sweep
    still returns, whatever the configuration, and every cell of the grid is
    [NaN] in the three tables. *)
Theorem short_histories_give_nan_tables panel :
  (short_histories panel -> trading_days_of panel = []) /\
  (trading_days_of panel = [] ->
   exists res,
     sweep panel = Ok res /\
     forall n lam, In n (n_factors_range cfg) -> In lam (lambdas cfg) ->
       loc (mean res) n lam = Some None /\
       loc (std res) n lam = Some None /\
       loc (sharpe res) n lam = Some None).
Proof.
  split; [apply short_histories_no_day|apply sweep_without_days].
Qed.

End SweepWithoutDays.

Lemma short_panel_is_short : short_histories short_panel.
Proof.
  intros r Hr. pose proof (filter_length_le (same_code (SecuCode r)) short_panel) as H.
  assert (Hlen : length short_panel = 3%nat) by reflexivity. lia.
Qed.

Lemma short_histories_give_nan_tables_witness :
  short_histories short_panel /\
  trading_days_of short_panel = [] /\
  exists res,
    run_sharpe_sweep toy_generator pls_unused demo_factor_names zero_count_cfg true
                     short_panel = Ok res /\
    loc (sharpe res) 0 1 = Some None.
Proof.
  pose proof (short_histories_give_nan_tables toy_generator pls_unused
                demo_factor_names zero_count_cfg true short_panel) as [H1 H2].
  pose proof (H1 short_panel_is_short) as Hd.
  split; [exact short_panel_is_short|]. split; [exact Hd|].
  destruct (H2 Hd) as (res & Hres & Hnan).
  exists res. split; [exact Hres|].
  apply Hnan; simpl; auto.
Defined.

(** ** The trading days and their slices *)

Lemma combine_sorted_fst {A B} (Rel : A -> A -> Prop) : forall (l1 : list A) (l2 : list B),
  StronglySorted Rel l1 ->
  StronglySorted (fun p q => Rel (fst p) (fst q)) (combine l1 l2).
Proof.
  induction l1 as [|a l1 IH]; intros [|b l2] Hs; simpl; try constructor.
  - apply IH. apply StronglySorted_inv in Hs. tauto.
  - apply StronglySorted_inv in Hs. destruct Hs as [_ Hall].
    apply Forall_forall. intros [a' b'] Hin. apply in_combine_l in Hin.
    rewrite Forall_forall in Hall. simpl. auto.
Qed.

Lemma dropna_sorted : forall l,
  StronglySorted (fun p q => day_le (fst p) (fst q)) l ->
  StronglySorted (fun a b => (dr_day a <= dr_day b)%Z) (dropna l).
Proof.
  induction l as [|[r p] l IH]; intros Hs; [constructor|].
  apply StronglySorted_inv in Hs. destruct Hs as [Hs Hall].
  specialize (IH Hs).
  change (dropna ((r, p) :: l))
    with (match p, ret r with
          | Some avg, Some x =>
              [{| dr_day := TradingDay r; dr_code := SecuCode r; dr_ret := x;
                  dr_past_ret_ave := avg; dr_exposure := exposure r |}]
          | _, _ => []
          end ++ dropna l).
  destruct p as [avg|]; [|exact IH]. destruct (ret r) as [x|]; [|exact IH].
  simpl. constructor; [exact IH|].
  apply Forall_forall. intros d Hd. apply in_dropna in Hd.
  destruct Hd as (r' & Hin & _ & Hday & _).
  rewrite Forall_forall in Hall. specialize (Hall _ Hin).
  unfold day_le in Hall. simpl in *. lia.
Qed.

Lemma prepared_sorted panel :
  StronglySorted (fun a b => (dr_day a <= dr_day b)%Z) (prepared panel).
Proof.
  unfold prepared, with_proxy. apply dropna_sorted, combine_sorted_fst, sorted_by_day.
Qed.

Lemma map_sorted {A} (key : A -> Z) (l : list A) :
  StronglySorted (fun a b => (key a <= key b)%Z) l ->
  StronglySorted Z.le (map key l).
Proof.
  induction 1 as [|a l Hs IH Hall]; simpl; constructor; [exact IH|].
  rewrite Forall_map. exact Hall.
Qed.

Lemma unique_from_increasing : forall l seen,
  StronglySorted Z.le l ->
  StronglySorted Z.lt (unique_from seen l).
Proof.
  induction l as [|x l IH]; intros seen Hs; simpl; [constructor|].
  apply StronglySorted_inv in Hs. destruct Hs as [Hs Hall].
  destruct (existsb (Z.eqb x) seen); [apply IH; exact Hs|].
  constructor; [apply IH; exact Hs|].
  apply Forall_forall. intros y Hy. apply in_unique_from in Hy.
  destruct Hy as [Hy Hnot]. rewrite Forall_forall in Hall. specialize (Hall y Hy).
  assert (y <> x) by (intros ->; apply Hnot; left; reflexivity). lia.
Qed.

Lemma strongly_sorted_lt_nodup l : StronglySorted Z.lt l -> NoDup l.
Proof.
  induction 1 as [|x l Hs IH Hall]; constructor; [|exact IH].
  intros Hin. rewrite Forall_forall in Hall. specialize (Hall x Hin). lia.
Qed.

(** X5.  The trading days the sweep evaluates are in strictly increasing
    order, each once, and they are exactly the days of the rows that
    survive the filter. *)
Theorem trading_days_are_chronological panel :
  StronglySorted Z.lt (trading_days_of panel) /\
  NoDup (trading_days_of panel) /\
  (forall day, In day (trading_days_of panel) <->
               exists d, In d (prepared panel) /\ dr_day d = day).
Proof.
  assert (Hs : StronglySorted Z.lt (trading_days_of panel)).
  { unfold trading_days_of, unique. apply unique_from_increasing.
    apply map_sorted, prepared_sorted. }
  split; [exact Hs|]. split; [apply strongly_sorted_lt_nodup; exact Hs|].
  intros day. unfold trading_days_of. rewrite in_unique, in_map_iff.
  split; intros (d & H1 & H2); exists d; auto.
Qed.

Lemma flat_map_ext_in {A B} (f g : A -> list B) (l : list A) :
  (forall a, In a l -> f a = g a) -> flat_map f l = flat_map g l.
Proof.
  induction l as [|a l IH]; intros H; simpl; [reflexivity|].
  rewrite (H a) by (left; reflexivity). rewrite IH; [reflexivity|].
  intros; apply H; right; assumption.
Qed.

Section GroupsOfSortedList.

Variable A : Type.
Variable key : A -> Z.

Local Abbreviation key_is k := (fun r : A => (key r =? k)%Z).
Local Abbreviation unseen seen := (fun r : A => negb (existsb (Z.eqb (key r)) seen)).

Lemma filter_key_above k : forall l,
  Forall (fun r => (k < key r)%Z) l -> filter (key_is k) l = [].
Proof.
  induction 1 as [|x l Hx _ IH]; simpl; [reflexivity|].
  replace (key x =? k)%Z with false by (symmetry; apply Z.eqb_neq; lia). exact IH.
Qed.

Lemma split_first_group k seen : forall l,
  StronglySorted (fun a b => (key a <= key b)%Z) l ->
  Forall (fun r => (k <= key r)%Z) l ->
  ~ In k seen ->
  filter (key_is k) l ++ filter (unseen (k :: seen)) l = filter (unseen seen) l.
Proof.
  induction l as [|y l IH]; intros Hs Hall Hk; [reflexivity|].
  apply StronglySorted_inv in Hs. destruct Hs as [Hs Hy].
  inversion Hall as [|? ? Hky Hall']; subst.
  cbn [filter existsb].
  destruct (key y =? k)%Z eqn:Hyk.
  - apply Z.eqb_eq in Hyk. cbn [orb negb]. 
    replace (existsb (Z.eqb (key y)) seen) with false.
    2:{ symmetry. apply not_true_is_false. intros H. apply existsb_Zeqb in H.
        rewrite Hyk in H. contradiction. }
    cbn [negb]. simpl. f_equal. apply IH; assumption.
  - apply Z.eqb_neq in Hyk. cbn [orb].
    assert (Habove : Forall (fun r => (k < key r)%Z) l).
    { rewrite Forall_forall in *. intros r Hr. specialize (Hy r Hr). lia. }
    rewrite (filter_key_above k l Habove). cbn [app].
    assert (Hext : filter (unseen (k :: seen)) l = filter (unseen seen) l).
    { apply filter_ext_in. intros r Hr. cbn [existsb].
      rewrite Forall_forall in Habove. specialize (Habove r Hr).
      replace (key r =? k)%Z with false by (symmetry; apply Z.eqb_neq; lia).
      reflexivity. }
    change (filter (fun r : A => negb ((key r =? k)%Z || existsb (Z.eqb (key r)) seen)) l)
      with (filter (unseen (k :: seen)) l).
    rewrite Hext. reflexivity.
Qed.

Lemma groups_of_sorted_list : forall l seen,
  StronglySorted (fun a b => (key a <= key b)%Z) l ->
  flat_map (fun k => filter (key_is k) l) (unique_from seen (map key l))
  = filter (unseen seen) l.
Proof.
  induction l as [|x l IH]; intros seen Hs; [reflexivity|].
  pose proof Hs as Hs0.
  apply StronglySorted_inv in Hs. destruct Hs as [Hs Hx].
  cbn [map unique_from].
  destruct (existsb (Z.eqb (key x)) seen) eqn:Hseen.
  - cbn [filter]. rewrite Hseen. cbn [negb].
    rewrite <- (IH seen Hs). apply flat_map_ext_in. intros k Hk.
    apply in_unique_from in Hk. destruct Hk as [_ Hk].
    cbn [filter]. destruct (key x =? k)%Z eqn:Hxk; [|reflexivity].
    apply Z.eqb_eq in Hxk. subst k. apply existsb_Zeqb in Hseen. contradiction.
  - cbn [flat_map].
    assert (Hnot : ~ In (key x) seen).
    { intros H. apply existsb_Zeqb in H. congruence. }
    rewrite (flat_map_ext_in _ (fun k => filter (key_is k) l)).
    2:{ intros k Hk. apply in_unique_from in Hk. destruct Hk as [_ Hk].
        cbn [filter]. destruct (key x =? k)%Z eqn:Hxk; [|reflexivity].
        apply Z.eqb_eq in Hxk. subst k. exfalso. apply Hk. left. reflexivity. }
    rewrite (IH (key x :: seen) Hs).
    cbn [filter]. rewrite Z.eqb_refl, Hseen. cbn [negb app]. f_equal.
    apply split_first_group; assumption.
Qed.

End GroupsOfSortedList.

(** X6.  The day slices, taken in the order of the trading days, put end
    to end, are the filtered frame: every surviving row is evaluated on
    exactly one day, and the slices keep the order of the frame. *)
Theorem day_slices_partition_frame panel :
  flat_map (day_slice (prepared panel)) (trading_days_of panel) = prepared panel.
Proof.
  unfold trading_days_of, unique, day_slice.
  rewrite (groups_of_sorted_list DayRow dr_day (prepared panel) [] (prepared_sorted panel)).
  cbn [existsb negb]. induction (prepared panel) as [|d l IH]; simpl; congruence.
Qed.

(** ** The order of the input rows *)

Lemma ascii_compare_lt_trans a b c :
  Ascii.compare a b = Lt -> Ascii.compare b c = Lt -> Ascii.compare a c = Lt.
Proof.
  unfold Ascii.compare. rewrite !N.compare_lt_iff. apply N.lt_trans.
Qed.

Lemma string_compare_lt_trans : forall a b c,
  String.compare a b = Lt -> String.compare b c = Lt -> String.compare a c = Lt.
Proof.
  induction a as [|x a IH]; intros [|y b] [|z c]; simpl; try discriminate; auto.
  destruct (Ascii.compare x y) eqn:Hxy; try discriminate.
  - apply Ascii.compare_eq_iff in Hxy. subst y.
    destruct (Ascii.compare x z); try discriminate; auto.
    apply IH.
  - intros _. destruct (Ascii.compare y z) eqn:Hyz; try discriminate.
    + apply Ascii.compare_eq_iff in Hyz. subst z. rewrite Hxy. auto.
    + rewrite (ascii_compare_lt_trans _ _ _ Hxy Hyz). auto.
Qed.

Lemma string_leb_trans a b c :
  String.leb a b = true -> String.leb b c = true -> String.leb a c = true.
Proof.
  unfold String.leb.
  destruct (String.compare a b) eqn:Hab; try discriminate; intros _.
  - apply String.compare_eq_iff in Hab. subst b. auto.
  - destruct (String.compare b c) eqn:Hbc; try discriminate; intros _.
    + apply String.compare_eq_iff in Hbc. subst c. rewrite Hab. reflexivity.
    + rewrite (string_compare_lt_trans _ _ _ Hab Hbc). reflexivity.
Qed.

Lemma row_le_trans a b c : row_le a b -> row_le b c -> row_le a c.
Proof.
  unfold row_le, row_leb. intros Hab Hbc.
  apply orb_true_iff in Hab. apply orb_true_iff in Hbc. apply orb_true_iff.
  destruct Hab as [Hab|Hab]; destruct Hbc as [Hbc|Hbc];
    rewrite ?andb_true_iff, ?Z.ltb_lt, ?Z.eqb_eq in *.
  - left. lia.
  - left. destruct Hbc. lia.
  - left. destruct Hab. lia.
  - right. destruct Hab as [E1 L1], Hbc as [E2 L2]. split; [lia|].
    eapply string_leb_trans; eassumption.
Qed.

Lemma row_le_antisym a b : row_le a b -> row_le b a -> row_key a = row_key b.
Proof.
  unfold row_le, row_leb, row_key. intros Hab Hba.
  apply orb_true_iff in Hab. apply orb_true_iff in Hba.
  destruct Hab as [Hab|Hab]; destruct Hba as [Hba|Hba];
    rewrite ?andb_true_iff, ?Z.ltb_lt, ?Z.eqb_eq in *.
  - lia.
  - destruct Hba. lia.
  - destruct Hab. lia.
  - destruct Hab as [E1 L1], Hba as [E2 L2].
    rewrite E1, (String.leb_antisym _ _ L1 L2). reflexivity.
Qed.

Lemma sort_values_strongly_sorted df : StronglySorted row_le (sort_values df).
Proof.
  apply Sorted_StronglySorted; [|apply sort_values_sorted].
  intros a b c. apply row_le_trans.
Qed.

Lemma sorted_rows_unique : forall l1 l2,
  StronglySorted row_le l1 -> StronglySorted row_le l2 ->
  Permutation l1 l2 -> NoDup (map row_key l1) -> l1 = l2.
Proof.
  induction l1 as [|a l1 IH]; intros l2 H1 H2 Hp Hnd.
  - apply Permutation_nil in Hp. auto.
  - destruct l2 as [|b l2]; [apply Permutation_sym, Permutation_nil in Hp; discriminate|].
    apply StronglySorted_inv in H1. destruct H1 as [H1 Ha].
    apply StronglySorted_inv in H2. destruct H2 as [H2 Hb].
    rewrite Forall_forall in Ha, Hb.
    inversion Hnd as [|? ? Hnotin Hnd']; subst.
    assert (Hab : a = b).
    { assert (Hina : In a (b :: l2)) by (eapply Permutation_in; [exact Hp|left; reflexivity]).
      assert (Hinb : In b (a :: l1))
        by (eapply Permutation_in; [symmetry; exact Hp|left; reflexivity]).
      destruct Hina as [Hina|Hina]; [auto|].
      destruct Hinb as [Hinb|Hinb]; [auto|].
      exfalso. apply Hnotin.
      rewrite (row_le_antisym a b (Ha b Hinb) (Hb a Hina)).
      apply in_map. exact Hinb. }
    subst b. f_equal. apply IH; auto.
    eapply Permutation_cons_inv. exact Hp.
Qed.

Lemma sort_values_of_permutation panel panel' :
  Permutation panel panel' -> NoDup (map row_key panel) ->
  sort_values panel' = sort_values panel.
Proof.
  intros Hp Hnd. symmetry. apply sorted_rows_unique.
  - apply sort_values_strongly_sorted.
  - apply sort_values_strongly_sorted.
  - rewrite (sort_values_perm panel), (sort_values_perm panel'). exact Hp.
  - eapply Permutation_NoDup; [|exact Hnd].
    apply Permutation_map. symmetry. apply sort_values_perm.
Qed.

(** X7.  With one row per (day, asset), the order in which the rows of the
    panel are given does not matter: the sweep sorts its copy of the panel,
    so the filtered frame, the trading days and the result, tables or
    exception, are the same for every reordering of the rows. *)
Theorem sweep_ignores_row_order G pls_fit_transform factor_names cfg use_pls
        panel panel' :
  Permutation panel panel' -> NoDup (map row_key panel) ->
  prepared panel' = prepared panel /\
  trading_days_of panel' = trading_days_of panel /\
  run_sharpe_sweep G pls_fit_transform factor_names cfg use_pls panel'
  = run_sharpe_sweep G pls_fit_transform factor_names cfg use_pls panel.
Proof.
  intros Hp Hnd. pose proof (sort_values_of_permutation _ _ Hp Hnd) as Hs.
  unfold trading_days_of, prepared, with_proxy, run_sharpe_sweep.
  rewrite Hs. auto.
Qed.

Lemma demo_panel_keys : NoDup (map row_key demo_panel).
Proof.
  repeat (constructor; [simpl; intuition discriminate|]). constructor.
Qed.

Lemma demo_panel_reordered : Permutation demo_panel demo_panel_by_day.
Proof.
  apply NoDup_Permutation.
  - apply (NoDup_map_inv row_key). exact demo_panel_keys.
  - apply (NoDup_map_inv row_key).
    repeat (constructor; [simpl; intuition discriminate|]). constructor.
  - intros r. unfold demo_panel, demo_panel_by_day. simpl. tauto.
Qed.

Lemma sweep_ignores_row_order_witness :
  Permutation demo_panel demo_panel_by_day /\
  NoDup (map row_key demo_panel) /\
  run_sharpe_sweep toy_generator pls_unused demo_factor_names demo_cfg false
                   demo_panel_by_day
  = run_sharpe_sweep toy_generator pls_unused demo_factor_names demo_cfg false
                     demo_panel.
Proof.
  split; [exact demo_panel_reordered|]. split; [exact demo_panel_keys|].
  exact (proj2 (proj2 (sweep_ignores_row_order toy_generator pls_unused
                         demo_factor_names demo_cfg false demo_panel demo_panel_by_day
                         demo_panel_reordered demo_panel_keys))).
Defined.

(** ** [ridge_markowitz_weights] on a list of penalties *)


Lemma vsub_self_zeros : forall u, vsub u u = zeros (length u).
Proof.
  induction u as [|a u IH]; simpl; auto.
  rewrite zeros_S. unfold vsub in *. simpl. f_equal; [ring|exact IH].
Qed.






Lemma dict_get_some_key {V} lam (w : V) : forall d,
  dict_get lam d = Some w -> In lam (map fst d).
Proof.
  induction d as [|[k' v'] d IH]; simpl; [discriminate|].
  destruct (label_eqb k' lam) eqn:E; [|auto].
  apply label_eqb_eq in E. auto.
Qed.

Section RidgeLoop.

Variable n : nat.
Variable F_t : vector.
Variable cov : matrix.
Hypothesis cov_square : square n cov.
Hypothesis F_length : length F_t = n.

Local Abbreviation ridge_body :=
  (fun lam (out : list (R * vector)) =>
     w <- linalg_solve (mat_add cov (mat_scale lam (eye (length F_t)))) F_t ;;
     Ok (dict_set lam w out)).










End RidgeLoop.







(** ** [expected_return_and_cov] *)

Lemma gram_entry (k : R) (cs : matrix) i j :
  entry (map (fun u => map (fun v => dot u v / k) cs) cs) i j
  = dot (nth i cs []) (nth j cs []) / k.
Proof.
  unfold entry.
  destruct (Nat.lt_ge_cases i (length cs)) as [Hi|Hi].
  - rewrite (nth_indep _ [] ((fun u => map (fun v => dot u v / k) cs) []))
      by (rewrite length_map; exact Hi).
    rewrite (map_nth (fun u => map (fun v => dot u v / k) cs)).
    destruct (Nat.lt_ge_cases j (length cs)) as [Hj|Hj].
    + rewrite (nth_indep _ 0 ((fun v => dot (nth i cs []) v / k) []))
        by (rewrite length_map; exact Hj).
      rewrite (map_nth (fun v => dot (nth i cs []) v / k)). reflexivity.
    + rewrite nth_overflow by (rewrite length_map; exact Hj).
      rewrite (nth_overflow cs [] Hj), dot_nil_r. unfold Rdiv. ring.
  - rewrite (nth_overflow (map _ cs)) by (rewrite length_map; exact Hi).
    rewrite (nth_overflow cs [] Hi). simpl. destruct j; unfold Rdiv; ring.
Qed.

Lemma np_cov_symmetric N M C : np_cov N M = Some C -> symmetric C.
Proof.
  unfold np_cov. destruct M as [|v0 M0] eqn:EM.
  - intros H. injection H as H. subst C. intros [|i] [|j]; reflexivity.
  - rewrite <- EM. clear EM v0 M0.
    destruct (N <? 2)%nat; [discriminate|]. intros H. injection H as H. subst C.
    intros i j. rewrite !gram_entry, dot_comm. reflexivity.
Qed.

Lemma ncols_rect d (A : matrix) :
  A <> [] -> Forall (fun r => length r = d) A -> ncols A = d.
Proof.
  destruct A as [|r A]; [congruence|]. intros _ H. inversion H. assumption.
Qed.

Lemma transpose_length d (A : matrix) :
  A <> [] -> Forall (fun r => length r = d) A -> length (transpose A) = d.
Proof.
  intros Hne Hrect. unfold transpose. rewrite length_map, length_seq.
  apply ncols_rect; assumption.
Qed.

(** X10.  For the exposures of a non-empty day with [d] features per
    asset, [expected_return_and_cov] returns a vector [F_t] with one entry
    per feature.  With one asset and at least one feature the covariance is
    [NaN]; with two assets or more it is a [d] by [d] matrix that is
    symmetric and positive semidefinite. *)
Theorem covariance_is_symmetric_psd factors y d :
  factors <> [] -> Forall (fun r => length r = d) factors ->
  length (fst (expected_return_and_cov factors y)) = d /\
  (length factors = 1%nat -> (0 < d)%nat ->
   snd (expected_return_and_cov factors y) = None) /\
  ((2 <= length factors)%nat ->
   exists C, snd (expected_return_and_cov factors y) = Some C /\
             square d C /\ symmetric C /\ psd C).
Proof.
  intros Hne Hrect. unfold expected_return_and_cov. cbn [fst snd].
  pose proof (transpose_length d factors Hne Hrect) as Hlen.
  split; [rewrite mat_vec_length; exact Hlen|]. split.
  - intros H1 Hd. apply np_cov_few; [lia|].
    intros E. rewrite E in Hlen. simpl in Hlen. lia.
  - intros H2. destruct (np_cov_some (length factors) (transpose factors) H2) as [C HC].
    exists C. split; [exact HC|]. split; [|split].
    + rewrite <- Hlen. apply (np_cov_square _ _ _ HC).
    + apply (np_cov_symmetric _ _ _ HC).
    + apply (np_cov_psd _ _ _ (transpose_rect factors) HC).
Qed.

Lemma covariance_is_symmetric_psd_witness :
  [[1; 2]; [3; 5]; [4; 4]] <> [] /\
  Forall (fun r => length r = 2%nat) [[1; 2]; [3; 5]; [4; 4]] /\
  length (fst (expected_return_and_cov [[1; 2]; [3; 5]; [4; 4]] [1; 0; 2])) = 2%nat /\
  exists C, snd (expected_return_and_cov [[1; 2]; [3; 5]; [4; 4]] [1; 0; 2]) = Some C /\
            square 2 C /\ symmetric C /\ psd C.
Proof.
  assert (Hne : [[1; 2]; [3; 5]; [4; 4]] <> ([] : matrix)) by discriminate.
  assert (Hrect : Forall (fun r : list R => length r = 2%nat) [[1; 2]; [3; 5]; [4; 4]])
    by (repeat constructor).
  split; [exact Hne|]. split; [exact Hrect|].
  destruct (covariance_is_symmetric_psd [[1; 2]; [3; 5]; [4; 4]] [1; 0; 2] 2 Hne Hrect)
    as (H1 & _ & H3).
  split; [exact H1|]. apply H3. simpl. lia.
Defined.

(** ** The kernel of the random features *)

Lemma dot_app : forall a c b d, length a = length c ->
  dot (a ++ b) (c ++ d) = dot a c + dot b d.
Proof.
  induction a as [|x a IH]; intros [|y c] b d Hl; simpl in *; try discriminate.
  - ring.
  - rewrite IH by lia. ring.
Qed.

Lemma dot_map_map {A} (f g : A -> R) (l : list A) :
  dot (map f l) (map g l) = sum_list (map (fun j => f j * g j) l).
Proof.
  unfold sum_list. induction l as [|j l IH]; simpl; [reflexivity|].
  rewrite IH. reflexivity.
Qed.

Lemma feature_row_kernel n omega gamma s x y :
  length x = length y ->
  dot (feature_row n omega gamma s x) (feature_row n omega gamma s y)
  = s * s * sum_list (map (fun j => cos (dot (vsub x y) (column j omega) * gamma))
                          (seq 0 n)).
Proof.
  intros Hl. unfold feature_row.
  rewrite dot_app by (rewrite !length_map; reflexivity).
  rewrite !dot_map_map. unfold sum_list.
  induction (seq 0 n) as [|j l IH]; simpl; [ring|].
  rewrite dot_vsub by exact Hl.
  replace ((dot x (column j omega) - dot y (column j omega)) * gamma)
    with (dot x (column j omega) * gamma - dot y (column j omega) * gamma) by ring.
  rewrite cos_minus.
  set (S1 := fold_right Rplus 0 (map _ l)) in *.
  set (S2 := fold_right Rplus 0 (map _ l)) in *.
  set (S3 := fold_right Rplus 0 (map _ l)) in *.
  lra.
Qed.

Lemma sum_list_ones {A} (l : list A) : sum_list (map (fun _ => 1) l) = INR (length l).
Proof.
  unfold sum_list. induction l as [|a l IH]; [reflexivity|].
  cbn [map fold_right length]. rewrite IH, S_INR. ring.
Qed.

Lemma feature_row_norm n omega gamma s x :
  dot (feature_row n omega gamma s x) (feature_row n omega gamma s x)
  = s * s * INR n.
Proof.
  rewrite feature_row_kernel by reflexivity. f_equal.
  rewrite <- (length_seq n 0) at 2. rewrite <- sum_list_ones.
  f_equal. apply map_ext. intros j.
  rewrite vsub_self_zeros, dot_zeros_l, Rmult_0_l. apply cos_0.
Qed.

(** X11.  For a feature count [n >= 1] the rows of the feature matrix have
    the inner products of a cosine kernel: the product of the rows of two
    assets is [2/n] times the sum over the [n] random directions of
    [cos (gamma * (x - y) . omega_j)], so it depends on the two exposure
    vectors through their difference only, and every row has squared norm
    2. *)
Theorem rff_rows_form_cosine_kernel G X names n cfg :
  (1 <= n)%Z ->
  exists omega gamma feats,
    draw_projection G (rff_random_seed cfg) (length names) n = Ok (omega, gamma) /\
    rff_features G X names n cfg = Ok feats /\
    forall a b ra rb, nth_error X a = Some ra -> nth_error X b = Some rb ->
      exists fa fb,
        nth_error feats a = Some fa /\ nth_error feats b = Some fb /\
        dot fa fa = 2 /\
        dot fa fb =
          2 / IZR n *
          sum_list (map (fun j => cos (dot (vsub (map ra names) (map rb names))
                                           (column j omega) * gamma))
                        (seq 0 (Z.to_nat n))).
Proof.
  intros Hn.
  destruct (draw_projection_ok G (rff_random_seed cfg) (length names) n)
    as (omega & gamma & Hd & _ & _); [lia|].
  exists omega, gamma. eexists. split; [exact Hd|]. split.
  { rewrite rff_features_factor, Hd. simpl. apply apply_projection_rows. exact Hn. }
  assert (Hpos : 0 < IZR n) by (apply IZR_lt; lia).
  assert (Hs : sqrt (2 / IZR n) * sqrt (2 / IZR n) = 2 / IZR n).
  { apply sqrt_sqrt. apply Rlt_le, Rdiv_lt_0_compat; lra. }
  intros a b ra rb Ha Hb. eexists. eexists.
  split; [unfold to_numpy; rewrite map_map; apply map_nth_error; exact Ha|].
  split; [unfold to_numpy; rewrite map_map; apply map_nth_error; exact Hb|].
  split.
  - rewrite feature_row_norm, Hs, INR_IZR_INZ, Z2Nat.id by lia. field. lra.
  - rewrite feature_row_kernel by (rewrite !length_map; reflexivity).
    rewrite Hs. reflexivity.
Qed.

Lemma rff_rows_form_cosine_kernel_witness :
  (1 <= 2)%Z /\
  exists omega gamma feats,
    draw_projection toy_generator 42 (length demo_factor_names) 2 = Ok (omega, gamma) /\
    rff_features toy_generator (map exposure demo_panel) demo_factor_names 2
                 {| rff_random_seed := 42 |} = Ok feats /\
    forall a b ra rb,
      nth_error (map exposure demo_panel) a = Some ra ->
      nth_error (map exposure demo_panel) b = Some rb ->
      exists fa fb,
        nth_error feats a = Some fa /\ nth_error feats b = Some fb /\
        dot fa fa = 2 /\
        dot fa fb =
          2 / IZR 2 *
          sum_list (map (fun j => cos (dot (vsub (map ra demo_factor_names)
                                                 (map rb demo_factor_names))
                                           (column j omega) * gamma))
                        (seq 0 (Z.to_nat 2))).
Proof.
  split; [lia|].
  apply (rff_rows_form_cosine_kernel toy_generator (map exposure demo_panel)
           demo_factor_names 2 {| rff_random_seed := 42 |}).
  lia.
Defined.

(** ** The default grid *)

Lemma default_config_grid :
  (forall n, In n (n_factors_range default_config) -> (10 <= n <= 200)%Z) /\
  (forall lam, In lam (lambdas default_config) -> 1 / 100000 <= lam <= 10) /\
  NoDup (n_factors_range default_config) /\ NoDup (lambdas default_config).
Proof.
  split; [|split; [|split]].
  - intros n Hn. simpl in Hn.
    repeat (destruct Hn as [<-|Hn]; [lia|]). contradiction.
  - intros lam Hl. simpl in Hl.
    repeat (destruct Hl as [<-|Hl]; [lra|]). contradiction.
  - repeat (constructor; [simpl; intuition discriminate|]). constructor.
  - repeat (constructor; [simpl; intuition lra|]). constructor.
Qed.

(** X12.  The default configuration is a regular grid for the sweep as
    [main] calls it, without PLS: its 26 feature counts lie between 10 and
    200, its five lambdas between 1e-5 and 10, and none is repeated.  So for
    every panel whose trading days have at least two assets each the sweep
    returns, and with at least one trading day every mean and std entry of
    the grid is a number. *)
Theorem default_grid_sweep_returns G pls_fit_transform factor_names panel :
  (forall day, In day (trading_days_of panel) ->
     (2 <= length (day_slice (prepared panel) day))%nat) ->
  length (n_factors_range default_config) = 26%nat /\
  length (lambdas default_config) = 5%nat /\
  NoDup (n_factors_range default_config) /\ NoDup (lambdas default_config) /\
  exists res,
    run_sharpe_sweep G pls_fit_transform factor_names default_config false panel
    = Ok res /\
    (trading_days_of panel <> [] ->
     forall n lam, In n (n_factors_range default_config) ->
                   In lam (lambdas default_config) ->
       exists m s, loc (mean res) n lam = Some (Some m) /\
                   loc (std res) n lam = Some (Some s)).
Proof.
  intros Hdays. destruct default_config_grid as (Hns & Hlams & Hnd1 & Hnd2).
  split; [reflexivity|]. split; [reflexivity|]. split; [exact Hnd1|].
  split; [exact Hnd2|].
  assert (Hns' : forall n, In n (n_factors_range default_config) -> (1 <= n)%Z).
  { intros n Hn. specialize (Hns n Hn). lia. }
  assert (Hlams' : forall lam, In lam (lambdas default_config) -> 0 < lam).
  { intros lam Hl. specialize (Hlams lam Hl). lra. }
  destruct (sweep_returns G pls_fit_transform factor_names default_config panel
              Hns' Hlams' Hdays) as [res Hres].
  exists res. split; [exact Hres|]. intros Hne n lam Hn Hl.
  destruct (sweep_records G pls_fit_transform factor_names default_config false
              panel res Hres n lam Hn Hl) as (rs & Hc & Hm & Hs & _).
  destruct (cell_returns_returns G pls_fit_transform factor_names default_config
              (prepared panel) (trading_days_of panel) n lam) as [vs Hvs]; auto.
  rewrite Hc in Hvs. injection Hvs as Hrs. subst rs.
  destruct vs as [|v vs].
  { apply for_collect_ok_inv, Forall2_length in Hc. simpl in Hc.
    destruct (trading_days_of panel); [contradiction|discriminate]. }
  destruct (np_mean_numbers v vs) as [m Hmean].
  destruct (np_std_numbers v vs) as [s Hstd].
  exists m, s. rewrite Hm, Hs, Hmean, Hstd. auto.
Qed.

Lemma default_grid_sweep_returns_witness :
  (forall day, In day (trading_days_of demo_panel) ->
     (2 <= length (day_slice (prepared demo_panel) day))%nat) /\
  exists res,
    run_sharpe_sweep toy_generator pls_unused demo_factor_names default_config false
                     demo_panel = Ok res /\
    exists m s, loc (mean res) 200 (1 / 100000) = Some (Some m) /\
                loc (std res) 200 (1 / 100000) = Some (Some s).
Proof.
  pose proof (day_sizes_from_check demo_panel demo_panel_assets) as Hdays.
  split; [exact Hdays|].
  destruct (default_grid_sweep_returns toy_generator pls_unused demo_factor_names
              demo_panel Hdays) as (_ & _ & _ & _ & res & Hres & Hnum).
  exists res. split; [exact Hres|].
  apply Hnum.
  - rewrite demo_panel_days. discriminate.
  - simpl. tauto.
  - simpl. tauto.
Defined.

(** ** [drop_rows_with_missing] *)

Lemma filter_filter {A} (f g : A -> bool) (l : list A) :
  filter g (filter f l) = filter (fun x => f x && g x) l.
Proof.
  induction l as [|x l IH]; simpl; [reflexivity|].
  destruct (f x); simpl; [destruct (g x); rewrite IH; reflexivity|exact IH].
Qed.

(** X13.  [drop_rows_with_missing] raises [KeyError] exactly when a
    required label is no column of the frame.  Otherwise it keeps the
    columns and exactly the rows in which every required column is present;
    dropping again changes nothing, and dropping for one list of columns and
    then for another is dropping for both at once. *)
Theorem drop_rows_keeps_complete_rows df cols :
  (drop_rows_with_missing df cols = Raise KeyError <->
   exists c, In c cols /\ has_column df c = false) /\
  (forall out, drop_rows_with_missing df cols = Ok out ->
     raw_columns out = raw_columns df /\
     (forall r, In r (raw_rows out) <->
                In r (raw_rows df) /\ forall c, In c cols -> notna r c = true) /\
     drop_rows_with_missing out cols = Ok out /\
     forall cols', drop_rows_with_missing out cols'
                   = drop_rows_with_missing df (cols ++ cols')).
Proof.
  unfold drop_rows_with_missing. split.
  - destruct (forallb (has_column df) cols) eqn:Hc; split.
    + discriminate.
    + intros (c & Hin & Hno). rewrite forallb_forall in Hc.
      rewrite (Hc c Hin) in Hno. discriminate.
    + intros _. destruct (forallb_forall (has_column df) cols) as [_ Hall].
      destruct (existsb (fun c => negb (has_column df c)) cols) eqn:He.
      * apply existsb_exists in He. destruct He as (c & Hin & Hn).
        exists c. split; [exact Hin|]. destruct (has_column df c); [discriminate|reflexivity].
      * rewrite Hall in Hc; [discriminate|]. intros c Hin.
        destruct (has_column df c) eqn:Hh; [reflexivity|].
        assert (existsb (fun c => negb (has_column df c)) cols = true)
          by (apply existsb_exists; exists c; rewrite Hh; auto).
        congruence.
    + reflexivity.
  - intros out. destruct (forallb (has_column df) cols) eqn:Hc; [|discriminate].
    intros H. injection H as H. subst out. cbn [raw_columns raw_rows].
    split; [reflexivity|]. split; [|split].
    + intros r. rewrite filter_In, forallb_forall. reflexivity.
    + unfold has_column, has_value_column in *. cbn [raw_columns]. rewrite Hc.
      rewrite filter_filter. do 2 f_equal.
      apply filter_ext. intros r. apply andb_diag.
    + intros cols'. unfold has_column, has_value_column in *. cbn [raw_columns].
      rewrite forallb_app, Hc. cbn [andb].
      destruct (forallb _ cols'); [|reflexivity].
      rewrite filter_filter. do 2 f_equal. apply filter_ext. intros r.
      rewrite forallb_app. reflexivity.
Qed.

(** ** [forward_fill_by_asset] *)

Lemma string_ltb_irrefl s : String.ltb s s = false.
Proof.
  unfold String.ltb.
  destruct (String.compare s s) eqn:E; try reflexivity.
  pose proof (String.compare_antisym s s) as Ha. rewrite E in Ha. discriminate.
Qed.

Lemma string_ltb_trans a b c :
  String.ltb a b = true -> String.ltb b c = true -> String.ltb a c = true.
Proof.
  unfold String.ltb.
  destruct (String.compare a b) eqn:Hab; try discriminate.
  destruct (String.compare b c) eqn:Hbc; try discriminate.
  rewrite (string_compare_lt_trans _ _ _ Hab Hbc). reflexivity.
Qed.

Lemma string_ltb_total a b :
  String.ltb a b = false -> a <> b -> String.ltb b a = true.
Proof.
  unfold String.ltb. intros H Hne. rewrite String.compare_antisym.
  destruct (String.compare a b) eqn:Hab; try discriminate; [|reflexivity].
  apply String.compare_eq_iff in Hab. contradiction.
Qed.

Lemma raw_leb_total a b : raw_leb a b = false -> raw_leb b a = true.
Proof.
  unfold raw_leb. intros H. apply orb_false_iff in H. destruct H as [H1 H2].
  apply orb_true_iff.
  destruct (String.eqb (raw_code a) (raw_code b)) eqn:E.
  - apply String.eqb_eq in E. right. rewrite E, String.eqb_refl. simpl in *.
    apply Z.leb_le. apply Z.leb_gt in H2. lia.
  - left. apply String.eqb_neq in E. apply string_ltb_total; assumption.
Qed.

Lemma raw_le_trans a b c : raw_le a b -> raw_le b c -> raw_le a c.
Proof.
  unfold raw_le, raw_leb. intros Hab Hbc.
  apply orb_true_iff in Hab. apply orb_true_iff in Hbc. apply orb_true_iff.
  destruct Hab as [Hab|Hab]; destruct Hbc as [Hbc|Hbc];
    rewrite ?andb_true_iff, ?String.eqb_eq, ?Z.leb_le in *.
  - left. eapply string_ltb_trans; eassumption.
  - left. destruct Hbc as [E _]. rewrite <- E. exact Hab.
  - left. destruct Hab as [E _]. rewrite E. exact Hbc.
  - right. destruct Hab as [E1 L1], Hbc as [E2 L2]. split; [congruence|lia].
Qed.

Lemma raw_le_same_code a b :
  raw_le a b -> raw_code a = raw_code b -> (raw_day a <= raw_day b)%Z.
Proof.
  unfold raw_le, raw_leb. intros H E. rewrite E, string_ltb_irrefl in H.
  simpl in H. apply andb_true_iff in H. destruct H as [_ H].
  apply Z.leb_le. exact H.
Qed.

Lemma insert_raw_hd x a : forall l,
  raw_le a x -> HdRel raw_le a l -> HdRel raw_le a (insert_raw x l).
Proof.
  intros [|y l] Hax Hhd; simpl; [constructor; exact Hax|].
  destruct (raw_leb x y); constructor; [exact Hax|].
  inversion Hhd; assumption.
Qed.

Lemma insert_raw_sorted x : forall l, Sorted raw_le l -> Sorted raw_le (insert_raw x l).
Proof.
  induction l as [|y l IH]; intros Hs; simpl.
  - repeat constructor.
  - apply Sorted_inv in Hs. destruct Hs as [Hs Hhd].
    destruct (raw_leb x y) eqn:Hxy.
    + constructor; [constructor; assumption|]. constructor. exact Hxy.
    + constructor; [apply IH; exact Hs|].
      apply insert_raw_hd; [apply raw_leb_total; exact Hxy|exact Hhd].
Qed.

Lemma sort_by_asset_sorted df : StronglySorted raw_le (sort_by_asset df).
Proof.
  apply Sorted_StronglySorted; [intros a b c; apply raw_le_trans|].
  induction df as [|x df IH]; simpl; [constructor|].
  apply insert_raw_sorted. exact IH.
Qed.

Lemma insert_raw_perm x : forall l, Permutation (insert_raw x l) (x :: l).
Proof.
  induction l as [|y l IH]; simpl; [reflexivity|].
  destruct (raw_leb x y); [reflexivity|].
  rewrite IH. apply perm_swap.
Qed.

Lemma sort_by_asset_perm df : Permutation (sort_by_asset df) df.
Proof.
  induction df as [|x df IH]; simpl; [constructor|].
  rewrite insert_raw_perm. constructor. exact IH.
Qed.

(** The place of an element within the elements of its group. *)
Lemma position_in_group {A} (p : A -> bool) : forall l i x,
  nth_error l i = Some x -> p x = true ->
  nth_error (filter p l) (length (filter p (firstn i l))) = Some x.
Proof.
  intros l i x Hi Hp.
  destruct (nth_error_split _ _ Hi) as (l1 & l2 & -> & Hl1).
  subst i. rewrite firstn_app, Nat.sub_diag, firstn_all. simpl.
  rewrite app_nil_r, filter_app. simpl. rewrite Hp.
  rewrite nth_error_app2 by lia. rewrite Nat.sub_diag. reflexivity.
Qed.

Lemma earlier_in_group {A} (p : A -> bool) : forall l i j y,
  (j < length (filter p (firstn i l)))%nat ->
  nth_error (filter p l) j = Some y ->
  exists i', (i' < i)%nat /\ nth_error l i' = Some y /\ p y = true.
Proof.
  intros l i j y Hj Hy.
  rewrite <- (firstn_skipn i l) in Hy at 1.
  rewrite filter_app, nth_error_app1 in Hy by exact Hj.
  apply nth_error_In, filter_In in Hy. destruct Hy as [Hin Hp].
  apply In_nth_error in Hin. destruct Hin as [i' Hi'].
  rewrite nth_error_firstn in Hi'.
  destruct (i' <? i)%nat eqn:Hlt; [|discriminate].
  apply Nat.ltb_lt in Hlt. eauto.
Qed.

Lemma last_cons {A} (a : A) l d : last (a :: l) d = last l a.
Proof.
  revert a d. induction l as [|b l IH]; intros a d; [reflexivity|].
  change (last (a :: b :: l) d) with (last (b :: l) d).
  rewrite (IH b d), (IH b a). reflexivity.
Qed.

(** Position [k] of a forward-filled series holds the last value present
    among the first [k + 1] values. *)
Lemma ffill_from_nth : forall xs last0 k,
  (k < length xs)%nat ->
  nth k (ffill_from last0 xs) None = last (map Some (present (firstn (S k) xs))) last0.
Proof.
  induction xs as [|[v|] xs IH]; intros last0 k Hk; simpl in Hk; [lia| |].
  - destruct k as [|k]; [reflexivity|].
    change (ffill_from last0 (Some v :: xs)) with (Some v :: ffill_from (Some v) xs).
    change (nth (S k) (Some v :: ffill_from (Some v) xs) None)
      with (nth k (ffill_from (Some v) xs) None).
    rewrite IH by lia.
    change (firstn (S (S k)) (Some v :: xs)) with (Some v :: firstn (S k) xs).
    change (present (Some v :: firstn (S k) xs)) with (v :: present (firstn (S k) xs)).
    cbn [map]. rewrite last_cons. reflexivity.
  - destruct k as [|k]; [reflexivity|].
    change (ffill_from last0 (None :: xs)) with (last0 :: ffill_from last0 xs).
    change (nth (S k) (last0 :: ffill_from last0 xs) None)
      with (nth k (ffill_from last0 xs) None).
    rewrite IH by lia. reflexivity.
Qed.

Lemma ffill_nth xs k :
  (k < length xs)%nat -> nth k (ffill xs) None = latest (firstn (S k) xs).
Proof. apply ffill_from_nth. Qed.

Lemma present_app a b : present (a ++ b) = present a ++ present b.
Proof. unfold present. apply flat_map_app. Qed.

Lemma latest_snoc xs v : latest (xs ++ [Some v]) = Some v.
Proof.
  unfold latest. rewrite present_app, map_app. simpl. apply last_last.
Qed.

Lemma firstn_S_nth_error {A} : forall (l : list A) k x,
  nth_error l k = Some x -> firstn (S k) l = firstn k l ++ [x].
Proof.
  induction l as [|y l IH]; intros [|k] x H; simpl in *; try discriminate.
  - congruence.
  - f_equal. apply IH. exact H.
Qed.

Lemma existsb_string_eqb c cols :
  existsb (String.eqb c) cols = true <-> In c cols.
Proof.
  rewrite existsb_exists. split.
  - intros (x & Hin & Heq). apply String.eqb_eq in Heq. subst. exact Hin.
  - intros Hin. exists c. split; [exact Hin|apply String.eqb_refl].
Qed.

Lemma same_asset_refl r : same_asset (raw_code r) r = true.
Proof. apply String.eqb_refl. Qed.

(** In the frame sorted by asset and day, with one row per (day, asset), an
    earlier row of the same asset is of an earlier day. *)
Lemma earlier_raw_row rows i' i q r :
  NoDup (map raw_key rows) -> (i' < i)%nat ->
  nth_error (sort_by_asset rows) i' = Some q ->
  nth_error (sort_by_asset rows) i = Some r ->
  raw_code q = raw_code r ->
  (raw_day q < raw_day r)%Z.
Proof.
  intros Hnd Hlt Hq Hr Hcode.
  pose proof (strongly_sorted_nth raw_le _ _ _ _ _ (sort_by_asset_sorted rows) Hlt Hq Hr)
    as Hle.
  apply raw_le_same_code in Hle; [|exact Hcode].
  destruct (Z.eq_dec (raw_day q) (raw_day r)) as [Heq|Hne]; [exfalso|lia].
  assert (Hnd' : NoDup (map raw_key (sort_by_asset rows))).
  { eapply Permutation_NoDup; [|exact Hnd].
    apply Permutation_map. symmetry. apply sort_by_asset_perm. }
  rewrite NoDup_nth_error in Hnd'.
  assert (Hi' : (i' < length (map raw_key (sort_by_asset rows)))%nat).
  { rewrite length_map. apply nth_error_Some. rewrite Hq. discriminate. }
  specialize (Hnd' i' i Hi').
  rewrite !nth_error_map, Hq, Hr in Hnd'. simpl in Hnd'.
  unfold raw_key in Hnd'. rewrite Heq, Hcode in Hnd'.
  specialize (Hnd' eq_refl). lia.
Qed.

(** X14.  When the factor columns are columns of the frame,
    [forward_fill_by_asset] returns the rows sorted by asset and day, with
    the same keys and columns.  In a factor column every row receives the
    last value present in the history of its own asset up to and including
    the row itself, and stays missing when there is none: a value that is
    present is kept, and with one row per (day, asset) a gap is filled from
    an earlier day of the asset, never from a later one.  The other columns
    are untouched. *)
Theorem forward_fill_takes_latest_value df cols :
  forallb (has_value_column df) cols = true ->
  NoDup (map raw_key (raw_rows df)) ->
  exists out,
    forward_fill_by_asset df cols = Ok out /\
    raw_columns out = raw_columns df /\
    map raw_key (raw_rows out) = map raw_key (sort_by_asset (raw_rows df)) /\
    Permutation (sort_by_asset (raw_rows df)) (raw_rows df) /\
    StronglySorted raw_le (sort_by_asset (raw_rows df)) /\
    forall i r, nth_error (sort_by_asset (raw_rows df)) i = Some r ->
      let history := filter (same_asset (raw_code r)) (sort_by_asset (raw_rows df)) in
      let k := length (filter (same_asset (raw_code r))
                              (firstn i (sort_by_asset (raw_rows df)))) in
      exists r',
        nth_error (raw_rows out) i = Some r' /\
        nth_error history k = Some r /\
        (forall j q, (j < k)%nat -> nth_error history j = Some q ->
           raw_code q = raw_code r /\ (raw_day q < raw_day r)%Z) /\
        (forall c, In c cols ->
           raw_cell r' c = latest (cells_of c (firstn (S k) history))) /\
        (forall c, ~ In c cols -> raw_cell r' c = raw_cell r c) /\
        (forall c v, raw_cell r c = Some v -> raw_cell r' c = Some v).
Proof.
  intros Hcols Hnd. unfold forward_fill_by_asset. rewrite Hcols. cbv zeta.
  set (S0 := sort_by_asset (raw_rows df)).
  eexists. split; [reflexivity|]. cbn [raw_columns raw_rows].
  split; [reflexivity|]. split.
  { rewrite map_map.
    transitivity (map (fun p : nat * RawRow => raw_key (snd p))
                      (combine (seq 0 (length S0)) S0)).
    - apply map_ext. intros [i r]. reflexivity.
    - rewrite <- (map_map snd raw_key). f_equal.
      clear. generalize 0%nat. induction S0 as [|x l IH]; intros s; simpl;
        [reflexivity|]. f_equal. apply IH. }
  split; [apply sort_by_asset_perm|]. split; [apply sort_by_asset_sorted|].
  intros i r Hi.
  set (history := filter (same_asset (raw_code r)) S0).
  set (k := length (filter (same_asset (raw_code r)) (firstn i S0))).
  assert (Hk : nth_error history k = Some r)
    by (apply position_in_group; [exact Hi|apply same_asset_refl]).
  exists (set_cells cols (fun c => groupby_asset ffill c S0 i r) r). split.
  { rewrite (map_nth_error _ _ _ (nth_error_combine_seq S0 0 i r Hi)). reflexivity. }
  split; [exact Hk|].
  assert (Hcell : forall c, In c cols ->
            groupby_asset ffill c S0 i r = latest (cells_of c (firstn (S k) history))).
  { intros c Hc. unfold groupby_asset. fold history. fold k.
    rewrite ffill_nth.
    - unfold cells_of. rewrite firstn_map. reflexivity.
    - rewrite length_map. apply nth_error_Some. rewrite Hk. discriminate. }
  split; [|split; [|split]].
  - intros j q Hj Hq.
    destruct (earlier_in_group _ S0 i j q Hj Hq) as (i' & Hlt & Hi' & Hsame).
    unfold same_asset in Hsame. apply String.eqb_eq in Hsame.
    split; [exact Hsame|].
    apply (earlier_raw_row (raw_rows df) i' i); assumption.
  - intros c Hc. unfold set_cells. cbn [raw_cell].
    rewrite (proj2 (existsb_string_eqb c cols) Hc). apply Hcell. exact Hc.
  - intros c Hc. unfold set_cells. cbn [raw_cell].
    destruct (existsb (String.eqb c) cols) eqn:E; [|reflexivity].
    apply existsb_string_eqb in E. contradiction.
  - intros c v Hv. unfold set_cells. cbn [raw_cell].
    destruct (existsb (String.eqb c) cols) eqn:E; [|exact Hv].
    apply existsb_string_eqb in E. rewrite (Hcell c E).
    rewrite (firstn_S_nth_error _ _ _ Hk). unfold cells_of.
    rewrite map_app. simpl. rewrite Hv. apply latest_snoc.
Qed.

Lemma demo_raw_keys : NoDup (map raw_key (raw_rows demo_raw)).
Proof.
  unfold demo_raw, raw_key, mk_raw. cbn [raw_rows map raw_day raw_code].
  repeat (constructor; [simpl; intuition congruence|]). constructor.
Qed.

Lemma forward_fill_takes_latest_value_witness :
  forallb (has_value_column demo_raw) ["EP_TTM"%string; "ROE"%string] = true /\
  NoDup (map raw_key (raw_rows demo_raw)) /\
  exists out,
    forward_fill_by_asset demo_raw ["EP_TTM"%string; "ROE"%string] = Ok out /\
    raw_columns out = raw_columns demo_raw /\
    map raw_key (raw_rows out) = map raw_key (sort_by_asset (raw_rows demo_raw)).
Proof.
  split; [reflexivity|]. split; [exact demo_raw_keys|].
  destruct (forward_fill_takes_latest_value demo_raw ["EP_TTM"%string; "ROE"%string]
              eq_refl demo_raw_keys) as (out & Hout & Hcols & Hkeys & _).
  exists out. split; [exact Hout|]. split; [exact Hcols|exact Hkeys].
Defined.

(** ** [zscore_by_day] *)















